(** * parse_vital: a shallow embedding of the .vital decoder of parse_vital.py

    The decompressed gzip stream is a [list byte]; every construct parser
    ([Struct], [Padded], [Array], [OneOf], [Switch], [PascalString], ...) is a
    function from the remaining stream to a result, with construct's
    exceptions as the error type.  The track-format dictionary [trk_format]
    is a [gmap] threaded through the packet loop.  Python floats are Rocq
    primitive (binary64) floats. *)

From Stdlib Require Import ZArith List Lia PrimFloat Uint63.
From Stdlib Require Import Strings.String Strings.Byte.
From stdpp Require Import base gmap list.

Open Scope Z_scope.

(** ** Exceptions raised by the code and by construct 2.10 *)

Inductive err :=
| StreamError          (* construct: short read (stream_read) *)
| ValidationError      (* construct: OneOf rejects a value *)
| ConstError           (* construct: Const(b'VITA') mismatch *)
| PaddingError         (* construct: Padded with negative length or overrun *)
| RangeError           (* construct: Array with a negative count *)
| AttributeError       (* Python: missing attribute / Switch default "Unknown recfmt" *)
| KeyError             (* Python: trk_format[trkid] for an unknown trkid *)
| IndexError           (* Python: val[0] on an empty list *)
| UnicodeDecodeError   (* Python: invalid UTF-8 in a PascalString *)
| TimestampError       (* arrow: the epoch cannot be shifted by the decoded seconds *)
| AssertionError       (* Python: assert *)
| ValueError           (* Python: tuple unpacking / raise ValueError *)
| RecTypeException     (* Python: raise Exception('Unknown rec_type: ...') *)
| OutOfFuel.           (* not raised: the packet loop gets enough fuel (body_loop_fuel) *)

Inductive result (A : Type) : Type :=
| Ok (a : A)
| Err (e : err).
Arguments Ok {A} a.
Arguments Err {A} e.

#[global] Instance byte_eq_dec : EqDecision byte := Byte.byte_eq_dec.

(** ** The parser monad over the decompressed stream *)

Definition parser (A : Type) := list byte -> result (A * list byte).

Definition pret {A} (a : A) : parser A := fun s => Ok (a, s).
Definition pfail {A} (e : err) : parser A := fun _ => Err e.
Definition pbind {A B} (p : parser A) (k : A -> parser B) : parser B :=
  fun s => match p s with
           | Ok (a, s') => k a s'
           | Err e => Err e
           end.

Declare Scope parser_scope.
Delimit Scope parser_scope with parser.
Notation "x <- p ;; k" := (pbind p (fun x => k))
  (at level 100, p at next level, right associativity) : parser_scope.
Open Scope parser_scope.

(** [stream_read] of construct: exactly [n] bytes or a [StreamError]. *)
Definition stream_read (n : Z) : parser (list byte) := fun s =>
  if (n <? 0) || (Z.of_nat (length s) <? n) then Err StreamError
  else Ok (take (Z.to_nat n) s, drop (Z.to_nat n) s).

(** Little-endian value of a byte string. *)
Definition le_value (bs : list byte) : Z :=
  fold_right (fun b acc => Z.of_N (Byte.to_N b) + 256 * acc) 0 bs.

(** [Int8ul]/[Int16ul]/[Int32ul]/[Int64ul] and the signed variants. *)
Definition int_ul (w : nat) : parser Z :=
  bs <- stream_read (Z.of_nat w) ;; pret (le_value bs).

Definition int_sl (w : nat) : parser Z :=
  v <- int_ul w ;;
  pret (if v <? 2 ^ (8 * Z.of_nat w - 1) then v else v - 2 ^ (8 * Z.of_nat w)).

Definition Byte_ : parser Z := int_ul 1.
Definition WORD : parser Z := int_ul 2.
Definition DWORD : parser Z := int_ul 4.
Definition short : parser Z := int_sl 2.
Definition long_ : parser Z := int_sl 4.

(** ** IEEE-754 decoding ([Float32l], [Float64l], i.e. struct.unpack) *)

(** [m * 2^e], exact whenever the result is representable. *)
Definition ldexp_Z (m e : Z) : float :=
  ldshiftexp (of_uint63 (Uint63.of_Z m)) (Uint63.of_Z (e + 2101)).

Definition float_of_bits (ebits mbits : Z) (b : Z) : float :=
  let bias := 2 ^ (ebits - 1) - 1 in
  let ex := Z.land (Z.shiftr b mbits) (2 ^ ebits - 1) in
  let m := Z.land b (2 ^ mbits - 1) in
  let mag :=
    if ex =? 2 ^ ebits - 1 then (if m =? 0 then infinity else nan)
    else if ex =? 0 then ldexp_Z m (1 - bias - mbits)
    else ldexp_Z (m + 2 ^ mbits) (ex - bias - mbits) in
  if Z.testbit b (ebits + mbits) then (- mag)%float else mag.

Definition f32_of_bits : Z -> float := float_of_bits 8 23.
Definition f64_of_bits : Z -> float := float_of_bits 11 52.

Definition float_ : parser float := v <- int_ul 4 ;; pret (f32_of_bits v).
Definition double_ : parser float := v <- int_ul 8 ;; pret (f64_of_bits v).

(** Python's [float(int)]: round to nearest (ints here are below 2^32). *)
Definition float_of_Z (z : Z) : float :=
  if z <? 0 then (- of_uint63 (Uint63.of_Z (- z)))%float
  else of_uint63 (Uint63.of_Z z).

(** ** Strict UTF-8 validation (Python's [bytes.decode('UTF-8')]) *)

Definition in_range (lo hi b : Z) : bool := (lo <=? b) && (b <=? hi).
Definition cont (b : Z) : bool := in_range 128 191 b.

Fixpoint utf8_valid_Z (l : list Z) : bool :=
  match l with
  | [] => true
  | b0 :: rest =>
    if b0 <? 128 then utf8_valid_Z rest
    else if in_range 194 223 b0 then
      match rest with
      | b1 :: r => cont b1 && utf8_valid_Z r
      | _ => false
      end
    else if in_range 224 239 b0 then
      match rest with
      | b1 :: b2 :: r =>
        (if b0 =? 224 then in_range 160 191 b1
         else if b0 =? 237 then in_range 128 159 b1 else cont b1)
        && cont b2 && utf8_valid_Z r
      | _ => false
      end
    else if in_range 240 244 b0 then
      match rest with
      | b1 :: b2 :: b3 :: r =>
        (if b0 =? 240 then in_range 144 191 b1
         else if b0 =? 244 then in_range 128 143 b1 else cont b1)
        && cont b2 && cont b3 && utf8_valid_Z r
      | _ => false
      end
    else false
  end.

Definition utf8_valid (bs : list byte) : bool :=
  utf8_valid_Z (map (fun b => Z.of_N (Byte.to_N b)) bs).

(** ** construct combinators *)

(** [PascalString(DWORD, "UTF-8")]; a Python [str] is kept as its UTF-8
    bytes (UTF-8 decoding is injective, so [==] on str is [=] on bytes). *)
Definition String_ : parser (list byte) :=
  n <- DWORD ;; bs <- stream_read n ;;
  if utf8_valid bs then pret bs else pfail UnicodeDecodeError.

Fixpoint prepeat {A} (n : nat) (p : parser A) : parser (list A) :=
  match n with
  | O => pret []
  | S n' => x <- p ;; xs <- prepeat n' p ;; pret (x :: xs)
  end.

(** [Array(count, subcon)] (also written [subcon[count]]). *)
Definition Array_ {A} (count : Z) (p : parser A) : parser (list A) :=
  if count <? 0 then pfail RangeError else prepeat (Z.to_nat count) p.

(** [Padded(n, subcon)]: parse [subcon], then read and drop the rest of [n]. *)
Definition Padded {A} (n : Z) (p : parser A) : parser A := fun s =>
  if n <? 0 then Err PaddingError else
  match p s with
  | Err e => Err e
  | Ok (a, s') =>
    let pad := n - (Z.of_nat (length s) - Z.of_nat (length s')) in
    if pad <? 0 then Err PaddingError else
    match stream_read pad s' with
    | Ok (_, s'') => Ok (a, s'')
    | Err e => Err e
    end
  end.

(** [OneOf(subcon, allowed)]. *)
Definition OneOf (p : parser Z) (allowed : list Z) : parser Z :=
  v <- p ;; if existsb (Z.eqb v) allowed then pret v else pfail ValidationError.

(** [Const(b'VITA')]. *)
Definition Const_ (expected : list byte) : parser (list byte) :=
  bs <- stream_read (Z.of_nat (length expected)) ;;
  if bool_decide (bs = expected) then pret bs else pfail ConstError.

(** ** Parsed containers *)

(** A Python number decoded by one of the [recfmt] element types. *)
Inductive pynum :=
| PInt (z : Z)
| PFloat (f : float).

Record header := {
  sig : list byte;
  format_ver : Z;
  headerlen : Z;
  tzbias : Z;
  inst_id : Z;
  prog_ver : Z
}.

Record devinfo := {
  dev_devid : Z;
  typename : list byte;
  devname : list byte;
  port : list byte
}.

Record trkinfo := {
  trkid : Z;
  rec_type : Z;
  recfmt : Z;
  name : list byte;
  unit_ : list byte;
  minval : float;
  maxval : float;
  color : list Z;
  srate : float;
  adc_gain : float;
  adc_offset : float;
  montype : Z;
  devid : Z
}.

Record cmd := {
  cmd_code : Z;
  cnt : option Z;
  cmd_trkids : option (list Z)
}.

(** The [values] sub-container of a REC, by the [rec_type] Switch branch.
    [Str] carries the [num] attribute that [Track.__init__] sets to 1. *)
Inductive rec_values :=
| Wav (num : Z) (fmt : Z) (vals : list pynum)
| Num (fmt : Z) (val : list pynum)
| Str (unused : Z) (sval : list byte) (snum : option Z)
| RawBytes (bs : list Z).

(** [vals_real], attached by [Track.__init__]. *)
Inductive real_vals :=
| RealList (xs : list float)
| RealScalar (x : float)
| RealStr (s : list byte).

Record rec := {
  infolen : Z;
  dt : float;
  rec_trkid : Z;
  rec_rec_type : Z;
  rec_name : list byte;
  values : rec_values;
  vals_real : option real_vals
}.

Inductive packet_data :=
| DTrk (t : trkinfo)
| DRec (r : rec)
| DCmd (c : cmd)
| DDev (d : devinfo)
| DNone.

Record packet := {
  type : Z;
  datalen : Z;
  data : packet_data
}.

Definition sig_VITA : list byte := [x56; x49; x54; x41].

Definition header_str : parser header :=
  sig <- Const_ sig_VITA ;;
  format_ver <- DWORD ;;
  headerlen <- WORD ;;
  tzbias <- short ;;
  inst_id <- DWORD ;;
  prog_ver <- DWORD ;;
  pret {| sig := sig; format_ver := format_ver; headerlen := headerlen;
          tzbias := tzbias; inst_id := inst_id; prog_ver := prog_ver |}.

Definition devinfo_str : parser devinfo :=
  devid <- DWORD ;;
  typename <- String_ ;;
  devname <- String_ ;;
  port <- String_ ;;
  pret {| dev_devid := devid; typename := typename; devname := devname; port := port |}.

Definition trkinfo_str : parser trkinfo :=
  trkid <- WORD ;;
  rec_type <- Byte_ ;;
  recfmt <- OneOf Byte_ [1; 6] ;;
  name <- String_ ;;
  unit_ <- String_ ;;
  minval <- float_ ;;
  maxval <- float_ ;;
  color <- Array_ 4 Byte_ ;;
  srate <- float_ ;;
  adc_gain <- double_ ;;
  adc_offset <- double_ ;;
  montype <- Byte_ ;;
  devid <- DWORD ;;
  pret {| trkid := trkid; rec_type := rec_type; recfmt := recfmt; name := name;
          unit_ := unit_; minval := minval; maxval := maxval; color := color;
          srate := srate; adc_gain := adc_gain; adc_offset := adc_offset;
          montype := montype; devid := devid |}.

Definition cmd_str : parser cmd :=
  c <- Byte_ ;;
  if c =? 5 then
    n <- WORD ;; ids <- Array_ n WORD ;;
    pret {| cmd_code := c; cnt := Some n; cmd_trkids := Some ids |}
  else pret {| cmd_code := c; cnt := None; cmd_trkids := None |}.

(** [recfmt_str]: the Switch on [recfmt]; its default is the string
    "Unknown recfmt", which is not a construct, so parsing it raises. *)
Definition recfmt_str (fmt num : Z) : parser (list pynum) :=
  match fmt with
  | 1 => Array_ num (x <- float_ ;; pret (PFloat x))
  | 2 => Array_ num (x <- double_ ;; pret (PFloat x))
  | 3 => Array_ num (x <- Byte_ ;; pret (PInt x))
  | 4 => Array_ num (x <- Byte_ ;; pret (PInt x))
  | 5 => Array_ num (x <- short ;; pret (PInt x))
  | 6 => Array_ num (x <- WORD ;; pret (PInt x))
  | 7 => Array_ num (x <- long_ ;; pret (PInt x))
  | 8 => Array_ num (x <- DWORD ;; pret (PInt x))
  | _ => pfail AttributeError
  end.

Definition rec_wav_str (fmt : Z) : parser rec_values :=
  num <- DWORD ;; vals <- recfmt_str fmt num ;; pret (Wav num fmt vals).

Definition rec_num_str (fmt : Z) : parser rec_values :=
  val <- recfmt_str fmt 1 ;; pret (Num fmt val).

Definition rec_str_str : parser rec_values :=
  unused <- DWORD ;; sval <- String_ ;; pret (Str unused sval None).

(** The [values] Switch of [rec_str], for the registered track [info]. *)
Definition rec_values_str (info : trkinfo) (budget : Z) : parser rec_values :=
  match rec_type info with
  | 1 => Padded budget (rec_wav_str (recfmt info))
  | 2 => Padded budget (rec_num_str (recfmt info))
  | 5 => Padded budget rec_str_str
  | _ => bs <- Array_ budget Byte_ ;; pret (RawBytes bs)
  end.

Section Parser.

(** Whether arrow accepts [epoch.shift(seconds=x)] for the decoded double
    of [Timestamp(double_, 1, 1970)]; the theorems hold for any such test. *)
Variable shift_ok : float -> bool.

Definition Timestamp_ : parser float :=
  x <- double_ ;; if shift_ok x then pret x else pfail TimestampError.

(** [rec_str]; [trk_format] is the registry, [datalen] the enclosing packet's. *)
Definition rec_str (trk_format : gmap Z trkinfo) (datalen : Z) : parser rec :=
  infolen <- WORD ;;
  dt <- Timestamp_ ;;
  tid <- WORD ;;
  match trk_format !! tid with
  | None => pfail KeyError
  | Some info =>
    values <- rec_values_str info (datalen - infolen - 2) ;;
    pret {| infolen := infolen; dt := dt; rec_trkid := tid;
            rec_rec_type := rec_type info; rec_name := name info;
            values := values; vals_real := None |}
  end.

(** [body_str] with [save_format_hook]: one packet, and the registry after it. *)
Definition body_str (trk_format : gmap Z trkinfo)
  : parser (packet * gmap Z trkinfo) :=
  ty <- OneOf Byte_ [0; 1; 9; 6] ;;
  dl <- DWORD ;;
  match ty with
  | 9 => d <- Padded dl devinfo_str ;;
         pret ({| type := ty; datalen := dl; data := DDev d |}, trk_format)
  | 0 => t <- Padded dl trkinfo_str ;;
         pret ({| type := ty; datalen := dl; data := DTrk t |},
               <[trkid t := t]> trk_format)
  | 1 => r <- Padded dl (rec_str trk_format dl) ;;
         pret ({| type := ty; datalen := dl; data := DRec r |}, trk_format)
  | 6 => c <- Padded dl cmd_str ;;
         pret ({| type := ty; datalen := dl; data := DCmd c |}, trk_format)
  | _ => _ <- Padded dl (pret tt) ;;
         pret ({| type := ty; datalen := dl; data := DNone |}, trk_format)
  end.

(** The [while not completed] loop: a [StreamError] ends it, any other
    exception propagates. *)
Fixpoint body_loop (fuel : nat) (trk_format : gmap Z trkinfo) (s : list byte)
    (body : list packet) : result (list packet) :=
  match fuel with
  | O => Err OutOfFuel
  | S fuel' =>
    match body_str trk_format s with
    | Ok ((p, trk_format'), s') => body_loop fuel' trk_format' s' (body ++ [p])
    | Err StreamError => Ok body
    | Err e => Err e
    end
  end.

Definition parse_packets (s : list byte) : result (list packet) :=
  body_loop (S (length s)) ∅ s [].

Definition summed (h : header) (body : list packet) : Z :=
  fold_right (fun x acc => datalen x + 5 + acc) 0 body + headerlen h + 10.

Record vital_file := {
  file_header : header;
  file_body : list packet;
  summed_datalen : Z
}.

(** [Vital.load_vital] on the decompressed bytes [s]; [total_file_size] is
    their length (the seek to the end of the GzipFile). *)
Definition load_vital (s : list byte) : result vital_file :=
  let total_file_size := Z.of_nat (length s) in
  match header_str s with
  | Err e => Err e
  | Ok (h, s1) =>
    match parse_packets s1 with
    | Err e => Err e
    | Ok body =>
      if total_file_size =? summed h body
      then Ok {| file_header := h; file_body := body; summed_datalen := summed h body |}
      else Err AssertionError
    end
  end.

End Parser.

(** ** The [Vital] object and its track views *)

Record vital := {
  vital_path : list byte;
  file : vital_file
}.

(** [Vital.__init__]: [load_vital] then the derived lists.  [body_str]
    gives type 0 packets [DTrk] data and type 1 packets [DRec] data, so
    the filters on [packet.type] are filters on the data constructor; the
    lists hold the very containers of [file.body] (they are views). *)
Definition Vital_init (shift_ok : float -> bool) (path s : list byte) : result vital :=
  match load_vital shift_ok s with
  | Ok f => Ok {| vital_path := path; file := f |}
  | Err e => Err e
  end.

Definition track_info (v : vital) : list trkinfo :=
  omap (fun p => match data p with DTrk t => Some t | _ => None end)
       (file_body (file v)).

Definition recs (v : vital) : list rec :=
  omap (fun p => match data p with DRec r => Some r | _ => None end)
       (file_body (file v)).

Record track := {
  tinfo : trkinfo;
  trecs : list rec;
  tpath : list byte   (* [self.info._io.name]: the path of the parsed file *)
}.

Definition py_float (x : pynum) : float :=
  match x with
  | PInt z => float_of_Z z
  | PFloat f => f
  end.

(** [val * adc_gain + adc_offset] in Python float arithmetic. *)
Definition adc (info : trkinfo) (x : pynum) : float :=
  (py_float x * adc_gain info + adc_offset info)%float.

Definition with_values (r : rec) (vs : rec_values) (vr : real_vals) : rec :=
  {| infolen := infolen r; dt := dt r; rec_trkid := rec_trkid r;
     rec_rec_type := rec_rec_type r; rec_name := rec_name r;
     values := vs; vals_real := Some vr |}.

(** One iteration of the conversion loop of [Track.__init__]. *)
Definition convert_rec (info : trkinfo) (r : rec) : result rec :=
  match rec_type info with
  | 1 => match values r with
         | Wav num fmt vals => Ok (with_values r (values r) (RealList (map (adc info) vals)))
         | _ => Err AttributeError
         end
  | 2 => match values r with
         | Num _ (x :: _) => Ok (with_values r (values r) (RealScalar (adc info x)))
         | Num _ [] => Err IndexError
         | _ => Err AttributeError
         end
  | 5 => match values r with
         | Str u sv _ => Ok (with_values r (Str u sv (Some 1)) (RealStr sv))
         | _ => Err AttributeError
         end
  | _ => Err RecTypeException
  end.

(** The loop mutates the REC containers of the file in place, in file
    order; an exception leaves the earlier ones converted. *)
Fixpoint convert_body (info : trkinfo) (t : Z) (ps : list packet)
  : list packet * option err :=
  match ps with
  | [] => ([], None)
  | p :: ps' =>
    match data p with
    | DRec r =>
      if rec_trkid r =? t then
        match convert_rec info r with
        | Ok r' =>
          let '(ps'', e) := convert_body info t ps' in
          ({| type := type p; datalen := datalen p; data := DRec r' |} :: ps'', e)
        | Err e => (ps, Some e)
        end
      else let '(ps'', e) := convert_body info t ps' in (p :: ps'', e)
    | _ => let '(ps'', e) := convert_body info t ps' in (p :: ps'', e)
    end
  end.

Definition with_body (v : vital) (body : list packet) : vital :=
  {| vital_path := vital_path v;
     file := {| file_header := file_header (file v); file_body := body;
                summed_datalen := summed_datalen (file v) |} |}.

Definition recs_of (v : vital) (t : Z) : list rec :=
  List.filter (fun r => rec_trkid r =? t) (recs v).

(** [Track.__init__(vital_obj, trkid)]: the result and the (mutated) file. *)
Definition Track_init (v : vital) (t : Z) : result track * vital :=
  match List.filter (fun i => trkid i =? t) (track_info v) with
  | [info] =>
    let '(body', e) := convert_body info t (file_body (file v)) in
    let v' := with_body v body' in
    match e with
    | None => (Ok {| tinfo := info; trecs := recs_of v' t; tpath := vital_path v |}, v')
    | Some e => (Err e, v')
    end
  | _ => (Err ValueError, v)
  end.

(** The trkids of the track-info entries named [n], in order. *)
Definition trkids_named (v : vital) (n : list byte) : list Z :=
  map trkid (List.filter (fun i => bool_decide (name i = n)) (track_info v)).

(** [Vital.get_track(trkid=None, name=None)]. *)
Definition get_track (v : vital) (trkid : option Z) (nm : option (list byte))
  : result track * vital :=
  match trkid, nm with
  | None, None => (Err ValueError, v)
  | _, Some n =>
    match trkids_named v n with
    | [t'] =>
      match trkid with
      | Some t => if t =? t' then Track_init v t' else (Err AssertionError, v)
      | None => Track_init v t'
      end
    | _ => (Err ValueError, v)
    end
  | Some t, None => Track_init v t
  end.

(** ** CSV export ([Track.save_to_file]) *)

Fixpoint split_on (c : byte) (l : list byte) : list (list byte) :=
  match l with
  | [] => [[]]
  | b :: l' =>
    if Byte.eqb b c then [] :: split_on c l'
    else match split_on c l' with
         | [] => [[b]]
         | w :: ws => (b :: w) :: ws
         end
  end.

(** [PurePosixPath(p).name]: the last non-empty, non-"." component. *)
Definition path_name (p : list byte) : list byte :=
  default [] (last (List.filter
    (fun w => negb (bool_decide (w = [])) && negb (bool_decide (w = [x2e])))
    (split_on x2f p))).

Fixpoint rfind_aux (c : byte) (l : list byte) (i acc : Z) : Z :=
  match l with
  | [] => acc
  | b :: l' => rfind_aux c l' (i + 1) (if Byte.eqb b c then i else acc)
  end.

(** [str.rfind]. *)
Definition rfind (c : byte) (l : list byte) : Z := rfind_aux c l 0 (-1).

(** [PurePath.stem]. *)
Definition path_stem (p : list byte) : list byte :=
  let nm := path_name p in
  let i := rfind x2e nm in
  if (0 <? i) && (i <? Z.of_nat (length nm) - 1) then take (Z.to_nat i) nm else nm.

Definition bytes (s : string) : list byte := list_byte_of_string s.

Section CsvExport.

(** The series of [Track.to_pandas_ts] as rendered by pandas, one
    (index, value) text pair per entry, or the exception pandas raises. *)
Variable to_pandas_rows : track -> result (list (list byte * list byte)).

(** A row of [Series.to_csv]: index, separator, value. *)
Definition csv_row (row : list byte * list byte) : list byte :=
  row.1 ++ bytes "," ++ row.2.

(** [save_to_file(folder_path, file_name)]: the folder, the file name and
    the lines written by [to_csv(file_path, header = False)]. *)
Definition save_to_file (tr : track) (folder_path file_name : option (list byte))
  : result (list byte * list byte * list (list byte)) :=
  let file_name :=
    match file_name with
    | Some f => f
    | None => path_stem (tpath tr) ++ bytes "_" ++ name (tinfo tr) ++ bytes ".csv"
    end in
  let folder_path := default (bytes "converted") folder_path in
  match to_pandas_rows tr with
  | Err e => Err e
  | Ok rows => Ok (folder_path, file_name, map csv_row rows)
  end.

End CsvExport.

(** ** [Vital.save_tracks_to_file] *)

(** The exception a call raises: one of the code, or the [TypeError] of a
    call with an unexpected keyword argument. *)
Inductive call_error :=
| PyErr (e : err)
| TypeError.

(** A file written by [save_to_file]: folder, file name and lines. *)
Definition written : Type := list byte * list byte * list (list byte).

Section SaveTracks.

Variable to_pandas_rows : track -> result (list (list byte * list byte)).

(** A list comprehension of [get_track] calls, one per (trkid, name)
    query, in order; the first exception ends it, and the file keeps the
    conversions done by the calls made so far. *)
Fixpoint get_tracks (v : vital) (qs : list (option Z * option (list byte)))
  : result (list track) * vital :=
  match qs with
  | [] => (Ok [], v)
  | (t, n) :: qs' =>
    match get_track v t n with
    | (Ok tr, v1) =>
      match get_tracks v1 qs' with
      | (Ok trs, v2) => (Ok (tr :: trs), v2)
      | (Err e, v2) => (Err e, v2)
      end
    | (Err e, v1) => (Err e, v1)
    end
  end.

(** [for track in tracks: track.save_to_file(folder_path=path)]: the files
    written, in order, and the exception that ended the loop. *)
Fixpoint save_each (trs : list track) (path : option (list byte))
  : list written * option err :=
  match trs with
  | [] => ([], None)
  | tr :: trs' =>
    match save_to_file to_pandas_rows tr path None with
    | Ok w => let '(ws, e) := save_each trs' path in (w :: ws, e)
    | Err e => ([], Some e)
    end
  end.

(** Save the tracks once the comprehension has built all of them. *)
Definition save_built (built : result (list track) * vital) (path : option (list byte))
  : (list written * option call_error) * vital :=
  match built with
  | (Ok trs, v') => let '(ws, e) := save_each trs path in ((ws, option_map PyErr e), v')
  | (Err e, v') => (([], Some (PyErr e)), v')
  end.

(** [Vital.save_tracks_to_file(trackids, names, path, save_all)].  The
    [trackids] branch calls [self.get_track(trackid = trackid)], and
    [get_track] has no parameter [trackid]: the first call raises. *)
Definition save_tracks_to_file (v : vital) (trackids : option (list Z))
    (names : option (list (list byte))) (path : option (list byte)) (save_all : bool)
  : (list written * option call_error) * vital :=
  if save_all then
    save_built (get_tracks v (map (fun i => (Some (trkid i), None)) (track_info v))) path
  else
    match trackids, names with
    | None, None => (([], Some (PyErr ValueError)), v)
    | _, Some ns => save_built (get_tracks v (map (fun n => (None, Some n)) ns)) path
    | Some [], None => (([], None), v)
    | Some (_ :: _), None => (([], Some TypeError), v)
    end.

End SaveTracks.

(** ** Concrete .vital streams *)

Definition byte_of_Z (z : Z) : byte :=
  match Byte.of_N (Z.to_N (z mod 256)) with Some b => b | None => x00 end.

(** [w] little-endian bytes of [z]. *)
Definition le_bytes (w : nat) (z : Z) : list byte :=
  map (fun i => byte_of_Z (Z.shiftr z (8 * Z.of_nat i))) (seq 0 w).

Definition pstr (s : string) : list byte :=
  le_bytes 4 (Z.of_nat (String.length s)) ++ bytes s.

Definition hdr_bytes (hlen : Z) : list byte :=
  sig_VITA ++ le_bytes 4 3 ++ le_bytes 2 hlen ++ le_bytes 2 0 ++ le_bytes 4 0 ++ le_bytes 4 0.

Definition packet_bytes (ty : Z) (payload : list byte) : list byte :=
  [byte_of_Z ty] ++ le_bytes 4 (Z.of_nat (length payload)) ++ payload.

(** A TRKINFO payload: srate 1.0, adc_gain [gain_bits], adc_offset [off_bits], devid 7. *)
Definition trkinfo_bytes (tid rt fmt : Z) (nm : string) (gain_bits off_bits : Z) : list byte :=
  le_bytes 2 tid ++ [byte_of_Z rt; byte_of_Z fmt] ++ pstr nm ++ pstr EmptyString ++
  le_bytes 4 0 ++ le_bytes 4 0 ++ le_bytes 4 0 ++ le_bytes 4 0x3F800000 ++
  le_bytes 8 gain_bits ++ le_bytes 8 off_bits ++ [x00] ++ le_bytes 4 7.

(** A REC payload with infolen 10 (the fixed dt and trkid fields). *)
Definition rec_bytes (tid dt_bits : Z) (payload : list byte) : list byte :=
  le_bytes 2 10 ++ le_bytes 8 dt_bits ++ le_bytes 2 tid ++ payload.

Definition vital_bytes (ps : list (list byte)) : list byte :=
  hdr_bytes 10 ++ concat ps.

Definition one_f64 : Z := 0x3FF0000000000000.

(** The scenarios of the specification (E1 to E5) and a few more. *)
Definition ex_numeric : list byte :=
  vital_bytes [packet_bytes 0 (trkinfo_bytes 1 2 1 "HR" one_f64 0);
               packet_bytes 1 (rec_bytes 1 one_f64 (le_bytes 4 0x42900000))].

Definition ex_wave : list byte :=
  vital_bytes [packet_bytes 0 (trkinfo_bytes 2 1 6 "ABP" 0x3FB999999999999A 0xC014000000000000);
               packet_bytes 1 (rec_bytes 2 one_f64
                 (le_bytes 4 4 ++ le_bytes 2 100 ++ le_bytes 2 150 ++
                  le_bytes 2 200 ++ le_bytes 2 250))].

Definition ex_events : list byte :=
  vital_bytes [packet_bytes 0 (trkinfo_bytes 4 5 1 "EVENT" one_f64 0);
               packet_bytes 0 (trkinfo_bytes 5 5 1 "EVENT" one_f64 0);
               packet_bytes 1 (rec_bytes 4 one_f64 (le_bytes 4 0 ++ pstr "intubated"));
               packet_bytes 1 (rec_bytes 5 one_f64 (le_bytes 4 0 ++ pstr "extubated"))].

Definition ex_recfmt_f64 : list byte :=
  vital_bytes [packet_bytes 0 (trkinfo_bytes 1 2 2 "HR" one_f64 0)].

Definition ex_unknown_type : list byte :=
  vital_bytes [packet_bytes 99 (repeat x00 10);
               packet_bytes 0 (trkinfo_bytes 1 2 1 "HR" one_f64 0)].

(** A header with [headerlen] 11 followed by a lone type byte. *)
Definition ex_truncated : list byte := hdr_bytes 11 ++ [x00].

Definition ex_same_trkid : list byte :=
  vital_bytes [packet_bytes 0 (trkinfo_bytes 1 2 1 "A" one_f64 0);
               packet_bytes 0 (trkinfo_bytes 1 2 1 "B" one_f64 0)].

(** A waveform REC whose payload carries 3 bytes beyond its 4 samples. *)
Definition ex_rec_surplus : list byte :=
  vital_bytes [packet_bytes 0 (trkinfo_bytes 2 1 6 "ABP" 0x3FB999999999999A 0xC014000000000000);
               packet_bytes 1 (rec_bytes 2 one_f64
                 (le_bytes 4 4 ++ le_bytes 2 100 ++ le_bytes 2 150 ++
                  le_bytes 2 200 ++ le_bytes 2 250 ++ [x01; x02; x03]))].

Definition accept_all : float -> bool := fun _ => true.

(** The bytes [Σ (datalen + 5)] taken by the packets of a body. *)
Definition packets_size (body : list packet) : Z :=
  fold_right (fun p a => datalen p + 5 + a) 0 body.

(** ** Invariants of parsed files *)

(** The shape of REC values that the [rec_type] Switch produces. *)
Definition kind_ok (rt : Z) (vs : rec_values) : Prop :=
  match vs with
  | Wav _ _ _ => rt = 1
  | Num _ l => rt = 2 /\ length l = 1%nat
  | Str _ _ _ => rt = 5
  | RawBytes _ => ~ In rt [1; 2; 5]
  end.

(** The registry after [save_format_hook] has seen packet [p]. *)
Definition reg_step (reg : gmap Z trkinfo) (p : packet) : gmap Z trkinfo :=
  match data p with
  | DTrk t => <[trkid t := t]> reg
  | _ => reg
  end.

(** A REC was decoded with a registered TRKINFO, in the shape of its rec_type. *)
Definition pkt_ok (reg : gmap Z trkinfo) (p : packet) : Prop :=
  match data p with
  | DRec r => exists info, reg !! rec_trkid r = Some info /\ kind_ok (rec_type info) (values r)
  | _ => True
  end.

Fixpoint body_wf (reg : gmap Z trkinfo) (body : list packet) : Prop :=
  match body with
  | [] => True
  | p :: ps => pkt_ok reg p /\ body_wf (reg_step reg p) ps
  end.

(** How [Track] may change one packet of the file when it converts trkid [t]. *)
Definition pkt_frame (t : Z) (p p' : packet) : Prop :=
  type p' = type p /\ datalen p' = datalen p /\
  match data p with
  | DRec r => exists r', data p' = DRec r' /\ rec_trkid r' = rec_trkid r /\
                (rec_trkid r <> t -> r' = r)
  | _ => data p' = data p
  end.

(** * Properties *)

(** ** Parsers consume a prefix of the stream *)

Definition suffix_parser {A} (p : parser A) : Prop :=
  forall s a s', p s = Ok (a, s') -> exists pre, s = pre ++ s'.

Create HintDb suffix.

Lemma pbind_Ok {A B} (p : parser A) (k : A -> parser B) s b s'' :
  pbind p k s = Ok (b, s'') -> exists a s', p s = Ok (a, s') /\ k a s' = Ok (b, s'').
Proof. unfold pbind. destruct (p s) as [[a s']|e]; [eauto|discriminate]. Qed.

Lemma pbind_Err {A B} (p : parser A) (k : A -> parser B) s e :
  p s = Err e -> pbind p k s = Err e.
Proof. unfold pbind. intros ->. reflexivity. Qed.

Lemma pbind_step {A B} (p : parser A) (k : A -> parser B) s a s' :
  p s = Ok (a, s') -> pbind p k s = k a s'.
Proof. unfold pbind. intros ->. reflexivity. Qed.

Ltac inv_bind H :=
  let a := fresh "v" in let s := fresh "s" in let Hp := fresh "Hp" in
  apply pbind_Ok in H; destruct H as (a & s & Hp & H); cbv beta in H.

Ltac inv_binds :=
  repeat match goal with H : pbind _ _ _ = Ok _ |- _ => inv_bind H end.

Lemma stream_read_Ok n s bs s' :
  stream_read n s = Ok (bs, s') ->
  0 <= n /\ n <= Z.of_nat (length s) /\ s = bs ++ s' /\ length bs = Z.to_nat n.
Proof.
  unfold stream_read. intros H.
  destruct (n <? 0) eqn:E1; simpl in H; [discriminate|].
  destruct (Z.of_nat (length s) <? n) eqn:E2; [discriminate|].
  injection H as <- <-. apply Z.ltb_ge in E1, E2.
  split; [lia|]. split; [lia|]. split; [symmetry; apply take_drop|].
  rewrite length_take. lia.
Qed.

Lemma stream_read_short n s :
  0 <= n -> Z.of_nat (length s) < n -> stream_read n s = Err StreamError.
Proof.
  unfold stream_read. intros H1 H2.
  replace (n <? 0) with false by (symmetry; apply Z.ltb_ge; lia).
  replace (Z.of_nat (length s) <? n) with true by (symmetry; apply Z.ltb_lt; lia).
  reflexivity.
Qed.

Lemma stream_read_suffix n : suffix_parser (stream_read n).
Proof. intros s bs s' H. apply stream_read_Ok in H. exists bs. tauto. Qed.

Lemma pret_suffix {A} (a : A) : suffix_parser (pret a).
Proof. intros s b s' H. injection H as _ <-. exists []. reflexivity. Qed.

Lemma pfail_suffix {A} e : suffix_parser (@pfail A e).
Proof. intros s b s' H. discriminate. Qed.

Lemma pbind_suffix {A B} (p : parser A) (k : A -> parser B) :
  suffix_parser p -> (forall a, suffix_parser (k a)) -> suffix_parser (pbind p k).
Proof.
  intros Hp Hk s b s'' H. inv_bind H.
  destruct (Hp _ _ _ Hp0) as [pre1 ->]. destruct (Hk _ _ _ _ H) as [pre2 ->].
  exists (pre1 ++ pre2). apply app_assoc.
Qed.

Lemma prepeat_suffix {A} n (p : parser A) :
  suffix_parser p -> suffix_parser (prepeat n p).
Proof.
  intros Hp. induction n as [|n IH]; simpl.
  - apply pret_suffix.
  - apply pbind_suffix; [exact Hp|]. intros a.
    apply pbind_suffix; [exact IH|]. intros. apply pret_suffix.
Qed.

Lemma Array_suffix {A} c (p : parser A) :
  suffix_parser p -> suffix_parser (Array_ c p).
Proof.
  intros Hp. unfold Array_. destruct (c <? 0).
  - apply pfail_suffix.
  - now apply prepeat_suffix.
Qed.

(** [Padded n p] consumes exactly [n] bytes: what [p] read, then the surplus. *)
Lemma Padded_Ok {A} n (p : parser A) s a s'' :
  suffix_parser p -> Padded n p s = Ok (a, s'') ->
  exists pre surplus, s = pre ++ surplus ++ s'' /\
    Z.of_nat (length pre + length surplus) = n /\ p s = Ok (a, surplus ++ s'').
Proof.
  intros Hp H. unfold Padded in H.
  destruct (n <? 0) eqn:En; [discriminate|].
  destruct (p s) as [[a' s']|e] eqn:Hps; [|discriminate].
  cbv beta iota zeta in H.
  destruct (Hp _ _ _ Hps) as [pre ->].
  destruct (n - _ <? 0) eqn:Epad; [discriminate|].
  destruct (stream_read _ s') as [[bs s3]|e] eqn:Hr; cbv beta iota in H; [|discriminate].
  injection H as -> ->.
  apply stream_read_Ok in Hr as (_ & _ & -> & Hlen).
  apply Z.ltb_ge in Epad. rewrite length_app in Hlen, Epad.
  exists pre, bs. split; [reflexivity|]. split; [lia|]. reflexivity.
Qed.

Lemma Padded_suffix {A} n (p : parser A) :
  suffix_parser p -> suffix_parser (Padded n p).
Proof.
  intros Hp s a s'' H. destruct (Padded_Ok _ _ _ _ _ Hp H) as (pre & surplus & -> & _).
  exists (pre ++ surplus). apply app_assoc.
Qed.

(** The length accounting of [Padded] needs no property of [p]. *)
Lemma Padded_length {A} n (p : parser A) s a s'' :
  Padded n p s = Ok (a, s'') -> 0 <= n /\ Z.of_nat (length s) = Z.of_nat (length s'') + n.
Proof.
  intros H. unfold Padded in H.
  destruct (n <? 0) eqn:En; [discriminate|].
  destruct (p s) as [[a' s']|e] eqn:Hps; [|discriminate].
  cbv beta iota zeta in H.
  destruct (n - _ <? 0) eqn:Epad; [discriminate|].
  destruct (stream_read _ s') as [[bs s3]|e] eqn:Hr; cbv beta iota in H; [|discriminate].
  injection H as -> ->.
  apply stream_read_Ok in Hr as (_ & Hle & -> & Hlen).
  apply Z.ltb_ge in Epad, En. rewrite ?length_app in *. lia.
Qed.

#[export] Hint Resolve stream_read_suffix pret_suffix pfail_suffix prepeat_suffix pbind_suffix
  Array_suffix Padded_suffix : suffix.

Ltac suffix_tac :=
  repeat first
    [ apply pbind_suffix; [|intro]
    | progress (eauto with suffix)
    | match goal with |- suffix_parser (match ?x with _ => _ end) => destruct x end ].

Lemma int_ul_suffix w : suffix_parser (int_ul w).
Proof. unfold int_ul. suffix_tac. Qed.
Lemma int_sl_suffix w : suffix_parser (int_sl w).
Proof. unfold int_sl. pose proof (int_ul_suffix w). suffix_tac. Qed.
#[export] Hint Resolve int_ul_suffix int_sl_suffix : suffix.

Lemma Byte__suffix : suffix_parser Byte_.
Proof. apply int_ul_suffix. Qed.
Lemma WORD_suffix : suffix_parser WORD.
Proof. apply int_ul_suffix. Qed.
Lemma DWORD_suffix : suffix_parser DWORD.
Proof. apply int_ul_suffix. Qed.
Lemma short_suffix : suffix_parser short.
Proof. apply int_sl_suffix. Qed.
Lemma long__suffix : suffix_parser long_.
Proof. apply int_sl_suffix. Qed.
Lemma float__suffix : suffix_parser float_.
Proof. unfold float_. suffix_tac. Qed.
Lemma double__suffix : suffix_parser double_.
Proof. unfold double_. suffix_tac. Qed.
#[export] Hint Resolve Byte__suffix WORD_suffix DWORD_suffix short_suffix long__suffix
  float__suffix double__suffix : suffix.

Lemma String__suffix : suffix_parser String_.
Proof. unfold String_. suffix_tac. Qed.
Lemma OneOf_suffix p l : suffix_parser p -> suffix_parser (OneOf p l).
Proof. intros. unfold OneOf. suffix_tac. Qed.
Lemma Const__suffix e : suffix_parser (Const_ e).
Proof. unfold Const_. suffix_tac. Qed.
#[export] Hint Resolve String__suffix OneOf_suffix Const__suffix : suffix.

Lemma header_str_suffix : suffix_parser header_str.
Proof. unfold header_str. suffix_tac. Qed.
Lemma devinfo_str_suffix : suffix_parser devinfo_str.
Proof. unfold devinfo_str. suffix_tac. Qed.
Lemma trkinfo_str_suffix : suffix_parser trkinfo_str.
Proof. unfold trkinfo_str. suffix_tac. Qed.
Lemma cmd_str_suffix : suffix_parser cmd_str.
Proof. unfold cmd_str. suffix_tac. Qed.
Lemma recfmt_str_suffix f n : suffix_parser (recfmt_str f n).
Proof. unfold recfmt_str. repeat case_match; suffix_tac. Qed.
#[export] Hint Resolve header_str_suffix devinfo_str_suffix trkinfo_str_suffix
  cmd_str_suffix recfmt_str_suffix : suffix.

Lemma rec_wav_str_suffix f : suffix_parser (rec_wav_str f).
Proof. unfold rec_wav_str. suffix_tac. Qed.
Lemma rec_num_str_suffix f : suffix_parser (rec_num_str f).
Proof. unfold rec_num_str. suffix_tac. Qed.
Lemma rec_str_str_suffix : suffix_parser rec_str_str.
Proof. unfold rec_str_str. suffix_tac. Qed.
#[export] Hint Resolve rec_wav_str_suffix rec_num_str_suffix rec_str_str_suffix : suffix.

Lemma rec_values_str_suffix info b : suffix_parser (rec_values_str info b).
Proof. unfold rec_values_str. repeat case_match; suffix_tac. Qed.
Lemma Timestamp__suffix ok : suffix_parser (Timestamp_ ok).
Proof. unfold Timestamp_. suffix_tac. Qed.
#[export] Hint Resolve rec_values_str_suffix Timestamp__suffix : suffix.

Lemma rec_str_suffix ok reg dl : suffix_parser (rec_str ok reg dl).
Proof. unfold rec_str. suffix_tac. Qed.
#[export] Hint Resolve rec_str_suffix : suffix.

Lemma body_str_suffix ok reg : suffix_parser (body_str ok reg).
Proof. unfold body_str. suffix_tac. Qed.

(** ** Reading fixed-width fields *)

Lemma OneOf_Ok p l s v s' :
  OneOf p l s = Ok (v, s') -> In v l /\ p s = Ok (v, s').
Proof.
  unfold OneOf. intros H. inv_bind H.
  destruct (existsb (Z.eqb v0) l) eqn:E; [|discriminate].
  injection H as <- <-. apply existsb_exists in E as (x & Hx & Heq).
  apply Z.eqb_eq in Heq. subst. auto.
Qed.

Lemma OneOf_reject p l s v s' :
  p s = Ok (v, s') -> ~ In v l -> OneOf p l s = Err ValidationError.
Proof.
  intros Hp Hn. unfold OneOf. rewrite (pbind_step _ _ _ _ _ Hp).
  destruct (existsb (Z.eqb v) l) eqn:E; [|reflexivity].
  apply existsb_exists in E as (x & Hx & Heq). apply Z.eqb_eq in Heq. subst. tauto.
Qed.

Lemma int_ul_Ok w s v s' :
  int_ul w s = Ok (v, s') -> exists bs, s = bs ++ s' /\ length bs = w /\ v = le_value bs.
Proof.
  unfold int_ul. intros H. inv_bind H.
  apply stream_read_Ok in Hp as (_ & _ & -> & Hl).
  injection H as <- <-. rewrite Nat2Z.id in Hl. eauto.
Qed.

Lemma int_ul_app w bs s :
  length bs = w -> int_ul w (bs ++ s) = Ok (le_value bs, s).
Proof.
  intros Hl. unfold int_ul, pbind, stream_read.
  replace (Z.of_nat w <? 0) with false by (symmetry; apply Z.ltb_ge; lia).
  replace (Z.of_nat (length (bs ++ s)) <? Z.of_nat w) with false
    by (symmetry; apply Z.ltb_ge; rewrite length_app; lia).
  rewrite Nat2Z.id, take_app_length', drop_app_length' by auto. reflexivity.
Qed.

Lemma Byte__cons b s : Byte_ (b :: s) = Ok (Z.of_N (Byte.to_N b), s).
Proof.
  unfold Byte_. change (b :: s) with ([b] ++ s).
  rewrite int_ul_app by reflexivity. simpl. do 3 f_equal. lia.
Qed.

Lemma le_value_nonneg bs : 0 <= le_value bs.
Proof. induction bs as [|b bs IH]; simpl; lia. Qed.

Lemma Timestamp__Ok ok s x s' :
  Timestamp_ ok s = Ok (x, s') -> exists bs, s = bs ++ s' /\ length bs = 8%nat.
Proof.
  unfold Timestamp_, double_. intros H. inv_bind H. inv_bind Hp.
  apply int_ul_Ok in Hp0 as (bs & -> & Hl & _).
  injection Hp as _ <-. destruct (ok v); [injection H as _ <-|discriminate]. eauto.
Qed.

(** ** The packet framer *)

(** A parsed packet consumed its 5-byte prefix and exactly [datalen] bytes. *)
Lemma body_str_length ok reg s p reg' s' :
  body_str ok reg s = Ok ((p, reg'), s') ->
  0 <= datalen p /\ Z.of_nat (length s) = Z.of_nat (length s') + 5 + datalen p.
Proof.
  unfold body_str. intros H. inv_bind H. inv_bind H.
  apply OneOf_Ok in Hp as [Hin Hp].
  apply int_ul_Ok in Hp as (b1 & -> & Hl1 & _).
  apply int_ul_Ok in Hp0 as (b4 & -> & Hl4 & _).
  destruct Hin as [<-|[<-|[<-|[<-|[]]]]]; cbv beta iota in H; inv_bind H;
    injection H as <- _ <-; apply Padded_length in Hp; simpl;
    rewrite !length_app; lia.
Qed.

(** The fuel given to the loop is enough: more fuel changes nothing. *)
Lemma body_loop_fuel ok fuel reg s acc :
  (length s < fuel)%nat -> body_loop ok fuel reg s acc = body_loop ok (S fuel) reg s acc.
Proof.
  revert reg s acc. induction fuel as [|fuel IH]; intros reg s acc Hlt; [lia|].
  cbn [body_loop]. destruct (body_str ok reg s) as [[[p reg'] s']|e] eqn:E; [|reflexivity].
  apply body_str_length in E. apply IH. lia.
Qed.

(** ** C1: the integrity check *)

(** C1: once the header is parsed and the packet loop has ended, the file
    model is built exactly when [Σ (datalen + 5) + headerlen + 10] equals the
    decompressed size; otherwise construction fails on the assertion. *)
Theorem load_vital_integrity (ok : float -> bool) (s s1 : list byte) (h : header)
    (body : list packet) :
  header_str s = Ok (h, s1) ->
  parse_packets ok s1 = Ok body ->
  (load_vital ok s = Err AssertionError <-> summed h body <> Z.of_nat (length s)) /\
  (load_vital ok s =
     Ok {| file_header := h; file_body := body; summed_datalen := summed h body |}
   <-> summed h body = Z.of_nat (length s)).
Proof.
  intros Hh Hb. unfold load_vital. rewrite Hh, Hb.
  destruct (Z.of_nat (length s) =? summed h body) eqn:E;
    [apply Z.eqb_eq in E | apply Z.eqb_neq in E];
    split; split; intros H; first [reflexivity | discriminate | lia].
Qed.

Lemma load_vital_integrity_witness :
  exists h s1 body,
    header_str ex_numeric = Ok (h, s1) /\ parse_packets accept_all s1 = Ok body /\
    ((load_vital accept_all ex_numeric = Err AssertionError <->
      summed h body <> Z.of_nat (length ex_numeric)) /\
     (load_vital accept_all ex_numeric =
        Ok {| file_header := h; file_body := body; summed_datalen := summed h body |}
      <-> summed h body = Z.of_nat (length ex_numeric))).
Proof.
  assert (H1 : header_str ex_numeric = Ok (_, _)) by (vm_compute; reflexivity).
  match type of H1 with _ = Ok (?h, ?s1) =>
    assert (H2 : parse_packets accept_all s1 = Ok _) by (vm_compute; reflexivity);
    exists h, s1; eexists;
    exact (conj H1 (conj H2 (load_vital_integrity _ _ _ _ _ H1 H2)))
  end.
Defined.

(** ** Packet types, recfmt validation and the loop's exit *)

Lemma OneOf_accept p l s v s' :
  p s = Ok (v, s') -> In v l -> OneOf p l s = Ok (v, s').
Proof.
  intros Hp Hin. unfold OneOf. rewrite (pbind_step _ _ _ _ _ Hp).
  destruct (existsb (Z.eqb v) l) eqn:E; [reflexivity|].
  exfalso. assert (existsb (Z.eqb v) l = true); [|congruence].
  apply existsb_exists. exists v. split; [exact Hin|apply Z.eqb_refl].
Qed.

Lemma Padded_Err {A} n (p : parser A) s e :
  0 <= n -> p s = Err e -> Padded n p s = Err e.
Proof.
  intros Hn Hp. unfold Padded.
  replace (n <? 0) with false by (symmetry; apply Z.ltb_ge; lia).
  rewrite Hp. reflexivity.
Qed.

Lemma body_str_unknown_type ok reg b s :
  ~ In (Z.of_N (Byte.to_N b)) [0; 1; 9; 6] -> body_str ok reg (b :: s) = Err ValidationError.
Proof.
  intros Hn. unfold body_str. apply pbind_Err.
  exact (OneOf_reject _ _ _ _ _ (Byte__cons b s) Hn).
Qed.

Lemma trkinfo_str_recfmt_Err (d0 d1 d2 r : byte) s :
  ~ In (Z.of_N (Byte.to_N r)) [1; 6] -> trkinfo_str (d0 :: d1 :: d2 :: r :: s) = Err ValidationError.
Proof.
  intros Hn. unfold trkinfo_str.
  change (d0 :: d1 :: d2 :: r :: s) with ([d0; d1] ++ d2 :: r :: s).
  unfold WORD at 1. rewrite (pbind_step _ _ _ _ _ (int_ul_app 2 [d0; d1] _ eq_refl)).
  rewrite (pbind_step _ _ _ _ _ (Byte__cons d2 _)).
  apply pbind_Err. exact (OneOf_reject _ _ _ _ _ (Byte__cons r s) Hn).
Qed.

Lemma trkinfo_str_recfmt s t s' :
  trkinfo_str s = Ok (t, s') -> recfmt t = 1 \/ recfmt t = 6.
Proof.
  unfold trkinfo_str. intros H. inv_binds.
  injection H as <- _. apply OneOf_Ok in Hp1 as [Hin _]. simpl.
  destruct Hin as [<-|[<-|[]]]; auto.
Qed.

Lemma load_vital_loop_Err ok s h s1 e :
  header_str s = Ok (h, s1) -> parse_packets ok s1 = Err e -> load_vital ok s = Err e.
Proof. intros Hh Hb. unfold load_vital. rewrite Hh, Hb. reflexivity. Qed.

(** ** C2: recfmt values accepted by TRKINFO *)

(** C2 (counterexample): a TRKINFO with recfmt 2 (f64) is not decoded; the
    whole file is rejected with a ValidationError. *)
Lemma recfmt_f64_rejected :
  load_vital accept_all ex_recfmt_f64 = Err ValidationError.
Proof. vm_compute. reflexivity. Qed.

(** C2 (amended): a TRKINFO packet whose recfmt byte is neither 1 nor 6
    makes the packet loop fail with ValidationError, which the loop does not
    catch; every TRKINFO that parses has recfmt 1 (f32) or 6 (u16). *)
Theorem trkinfo_recfmt_gate ok fuel reg (dl : list byte) (d0 d1 d2 r : byte) s acc :
  length dl = 4%nat -> ~ In (Z.of_N (Byte.to_N r)) [1; 6] ->
  body_loop ok (S fuel) reg ([x00] ++ dl ++ [d0; d1; d2; r] ++ s) acc = Err ValidationError /\
  (forall s0 t s', trkinfo_str s0 = Ok (t, s') -> recfmt t = 1 \/ recfmt t = 6).
Proof.
  intros Hdl Hr. split; [|exact trkinfo_str_recfmt].
  cbn [body_loop]. change ([x00] ++ ?X) with (x00 :: X). unfold body_str.
  assert (H0 : forall rest, OneOf Byte_ [0; 1; 9; 6] (x00 :: rest) = Ok (0, rest)).
  { intros rest. apply OneOf_accept; [exact (Byte__cons x00 rest)|simpl; auto]. }
  rewrite (pbind_step _ _ _ _ _ (H0 _)).
  unfold DWORD at 1. rewrite (pbind_step _ _ _ _ _ (int_ul_app 4 dl _ Hdl)).
  cbv beta iota.
  rewrite (pbind_Err _ _ _ _ (Padded_Err _ _ _ _ (le_value_nonneg _)
             (trkinfo_str_recfmt_Err d0 d1 d2 r s Hr))).
  reflexivity.
Qed.

Lemma trkinfo_recfmt_gate_witness :
  length [x00; x00; x00; x00] = 4%nat /\ ~ In (Z.of_N (Byte.to_N x02)) [1; 6] /\
  (body_loop accept_all 1 ∅ ([x00] ++ [x00; x00; x00; x00] ++ [x01; x00; x02; x02] ++ [])
     [] = Err ValidationError /\
   (forall s0 t s', trkinfo_str s0 = Ok (t, s') -> recfmt t = 1 \/ recfmt t = 6)).
Proof.
  assert (H1 : length [x00; x00; x00; x00] = 4%nat) by reflexivity.
  assert (H2 : ~ In (Z.of_N (Byte.to_N x02)) [1; 6]) by (simpl; lia).
  exact (conj H1 (conj H2 (trkinfo_recfmt_gate accept_all 0 ∅ _ x01 x00 x02 x02 [] [] H1 H2))).
Defined.

(** ** C4: how the packet loop ends *)

(** C4 (counterexample): the stream ends after the type byte of a packet, so
    the read of [datalen] is short; the loop still ends normally and, with a
    header whose [headerlen] covers the stray byte, the file model is built. *)
Lemma truncated_packet_accepted :
  (exists h, header_str ex_truncated = Ok (h, [x00])) /\
  OneOf Byte_ [0; 1; 9; 6] [x00] = Ok (0, []) /\
  DWORD [] = Err StreamError /\
  body_str accept_all ∅ [x00] = Err StreamError /\
  (exists f, load_vital accept_all ex_truncated = Ok f).
Proof.
  split; [eexists; vm_compute; reflexivity|].
  split; [vm_compute; reflexivity|].
  split; [vm_compute; reflexivity|].
  split; [vm_compute; reflexivity|].
  eexists; vm_compute; reflexivity.
Qed.

(** ** C5: unknown packet types *)

(** C5 (counterexample): an unknown packet type 99 in the middle of the
    stream is not skipped; the file is rejected with a ValidationError. *)
Lemma unknown_type_rejected :
  load_vital accept_all ex_unknown_type = Err ValidationError.
Proof. vm_compute. reflexivity. Qed.

(** C5 (amended): when the loop reaches a packet whose type byte is outside
    {0, 1, 6, 9}, [OneOf] raises ValidationError, which the loop does not
    catch; the file model is then not built. *)
Theorem unknown_type_aborts ok fuel reg (b : byte) s acc :
  ~ In (Z.of_N (Byte.to_N b)) [0; 1; 9; 6] ->
  body_loop ok (S fuel) reg (b :: s) acc = Err ValidationError /\
  (forall s0 h, header_str s0 = Ok (h, b :: s) -> load_vital ok s0 = Err ValidationError).
Proof.
  intros Hb. assert (Hl : body_loop ok (S fuel) reg (b :: s) acc = Err ValidationError).
  { cbn [body_loop]. rewrite body_str_unknown_type by exact Hb. reflexivity. }
  split; [exact Hl|]. intros s0 h Hh. apply (load_vital_loop_Err _ _ h (b :: s)); [exact Hh|].
  unfold parse_packets. cbn [body_loop]. rewrite body_str_unknown_type by exact Hb. reflexivity.
Qed.

Lemma unknown_type_aborts_witness :
  ~ In (Z.of_N (Byte.to_N x63)) [0; 1; 9; 6] /\
  (body_loop accept_all 1 ∅ [x63] [] = Err ValidationError /\
   (forall s0 h, header_str s0 = Ok (h, [x63]) -> load_vital accept_all s0 = Err ValidationError)).
Proof.
  assert (H : ~ In (Z.of_N (Byte.to_N x63)) [0; 1; 9; 6]) by (simpl; lia).
  exact (conj H (unknown_type_aborts accept_all 0 ∅ x63 [] [] H)).
Defined.

(** ** Track views: the conversion loop of [Track.__init__] *)

Lemma convert_rec_trkid info r r' :
  convert_rec info r = Ok r' -> rec_trkid r' = rec_trkid r.
Proof. unfold convert_rec. intros Hc. repeat case_match; try discriminate; injection Hc as <-; reflexivity. Qed.

Lemma convert_body_None info t ps ps' :
  convert_body info t ps = (ps', None) ->
  Forall2 (fun p p' =>
    match data p with
    | DRec r => if rec_trkid r =? t
                then exists r', data p' = DRec r' /\ convert_rec info r = Ok r'
                else p' = p
    | _ => p' = p
    end) ps ps'.
Proof.
  revert ps'. induction ps as [|p ps IH]; intros ps' H; simpl in H.
  - injection H as <-. constructor.
  - destruct (data p) as [d|r|c|t'|] eqn:Ed;
      [| destruct (rec_trkid r =? t) eqn:Et;
         [destruct (convert_rec info r) as [r'|e] eqn:Ec; [|discriminate] |] | | |];
      destruct (convert_body info t ps) as [ps'' e'] eqn:E; simpl in H;
      injection H as <- ->; constructor; try (apply IH; reflexivity);
      rewrite Ed; try rewrite Et; eauto.
Qed.

Lemma recs_of_convert v info t ps' :
  convert_body info t (file_body (file v)) = (ps', None) ->
  Forall2 (fun r r' => convert_rec info r = Ok r') (recs_of v t) (recs_of (with_body v ps') t).
Proof.
  unfold recs_of, recs, with_body; simpl. intros H. apply convert_body_None in H.
  induction H as [|p p' ps ps' Hp HF IH]; simpl; [constructor|].
  destruct (data p) as [d|r|c|t'|] eqn:Ed; try (subst p'; rewrite Ed; exact IH).
  destruct (rec_trkid r =? t) eqn:Et.
  - destruct Hp as (r' & Hd & Hc). rewrite Hd. simpl.
    rewrite (convert_rec_trkid _ _ _ Hc), Et. constructor; assumption.
  - subst p'. rewrite Ed. simpl. rewrite Et. exact IH.
Qed.

(** ** C3: duplicated EVENT tracks *)

(** C3 (counterexample): with two TRKINFO packets named EVENT (trkids 4 and
    5), both stay in the track-info list, and a lookup by the name EVENT
    fails with ValueError. *)
Lemma events_not_deduplicated :
  exists v, Vital_init accept_all (bytes "case1.vital") ex_events = Ok v /\
    trkids_named v (bytes "EVENT") = [4; 5] /\
    get_track v None (Some (bytes "EVENT")) = (Err ValueError, v).
Proof.
  assert (H1 : Vital_init accept_all (bytes "case1.vital") ex_events = Ok _)
    by (vm_compute; reflexivity).
  match type of H1 with _ = Ok ?v =>
    exists v; split; [exact H1|]; split; vm_compute; reflexivity
  end.
Qed.

(** ** C8: real values of a track view *)

Lemma map_lookup_adc info (vals : list pynum) i raw :
  vals !! i = Some raw -> map (adc info) vals !! i = Some (adc info raw).
Proof.
  revert i. induction vals as [|x vals IH]; intros [|i] Hi; simpl in *;
    try discriminate; [congruence | auto].
Qed.

Lemma convert_rec_values info r r' :
  convert_rec info r = Ok r' ->
  (rec_type info = 1 ->
     exists num fmt vals reals,
       values r' = Wav num fmt vals /\ vals_real r' = Some (RealList reals) /\
       length reals = length vals /\
       forall i raw, vals !! i = Some raw ->
         reals !! i = Some (py_float raw * adc_gain info + adc_offset info)%float) /\
  (rec_type info = 2 ->
     exists fmt raw rest,
       values r' = Num fmt (raw :: rest) /\
       vals_real r' = Some (RealScalar (py_float raw * adc_gain info + adc_offset info)%float)) /\
  (rec_type info = 5 ->
     exists u sv, values r' = Str u sv (Some 1) /\ vals_real r' = Some (RealStr sv)).
Proof.
  destruct r as [il dt0 tid rt nm vs vr]. unfold convert_rec. simpl.
  intros H. split; [|split]; intros E; rewrite E in H; destruct vs as [n f vals|f [|x l]|u sv o|bs];
    try discriminate; injection H as <-; simpl.
  - exists n, f, vals, (map (adc info) vals). split; [reflexivity|]. split; [reflexivity|].
    split; [apply length_map|]. intros i raw Hi. exact (map_lookup_adc info vals i raw Hi).
  - exists f, x, l. split; reflexivity.
  - exists u, sv. split; reflexivity.
Qed.

Lemma Forall2_Forall_r {A B} (R : A -> B -> Prop) (P : B -> Prop) l1 l2 :
  Forall2 R l1 l2 -> (forall a b, R a b -> P b) -> Forall P l2.
Proof. intros HF HR. induction HF; constructor; eauto. Qed.

(** C8: in a track view that [Track] builds, every REC of a waveform track
    (rec_type 1) has [real[i] = raw[i] * adc_gain + adc_offset] for every
    sample [i]; a numeric track (rec_type 2) has the one real value
    [raw * adc_gain + adc_offset] of its first raw value; a string track
    (rec_type 5) exposes the decoded string with [num = 1]. *)
Theorem track_values_scaled v t tr v' :
  Track_init v t = (Ok tr, v') ->
  Forall (fun r =>
    (rec_type (tinfo tr) = 1 ->
       exists num fmt vals reals,
         values r = Wav num fmt vals /\ vals_real r = Some (RealList reals) /\
         length reals = length vals /\
         forall i raw, vals !! i = Some raw ->
           reals !! i = Some (py_float raw * adc_gain (tinfo tr) + adc_offset (tinfo tr))%float) /\
    (rec_type (tinfo tr) = 2 ->
       exists fmt raw rest,
         values r = Num fmt (raw :: rest) /\
         vals_real r = Some (RealScalar
                               (py_float raw * adc_gain (tinfo tr) + adc_offset (tinfo tr))%float)) /\
    (rec_type (tinfo tr) = 5 ->
       exists u sv, values r = Str u sv (Some 1) /\ vals_real r = Some (RealStr sv)))
    (trecs tr).
Proof.
  unfold Track_init. intros H.
  destruct (List.filter (fun i => trkid i =? t) (track_info v)) as [|info [|i l]];
    try congruence.
  destruct (convert_body info t (file_body (file v))) as [ps' [e|]] eqn:Ec; [congruence|].
  injection H as <- <-. simpl.
  apply (Forall2_Forall_r _ _ _ _ (recs_of_convert _ _ _ _ Ec)).
  intros r r'. apply convert_rec_values.
Qed.

Lemma track_values_scaled_witness :
  exists v tr v',
    Vital_init accept_all (bytes "case1.vital") ex_wave = Ok v /\
    Track_init v 2 = (Ok tr, v') /\
    Forall (fun r =>
      (rec_type (tinfo tr) = 1 ->
         exists num fmt vals reals,
           values r = Wav num fmt vals /\ vals_real r = Some (RealList reals) /\
           length reals = length vals /\
           forall i raw, vals !! i = Some raw ->
             reals !! i = Some (py_float raw * adc_gain (tinfo tr) + adc_offset (tinfo tr))%float) /\
      (rec_type (tinfo tr) = 2 ->
         exists fmt raw rest,
           values r = Num fmt (raw :: rest) /\
           vals_real r = Some (RealScalar
                                 (py_float raw * adc_gain (tinfo tr) + adc_offset (tinfo tr))%float)) /\
      (rec_type (tinfo tr) = 5 ->
         exists u sv, values r = Str u sv (Some 1) /\ vals_real r = Some (RealStr sv)))
      (trecs tr).
Proof.
  assert (H1 : Vital_init accept_all (bytes "case1.vital") ex_wave = Ok _)
    by (vm_compute; reflexivity).
  match type of H1 with _ = Ok ?v =>
    assert (H2 : Track_init v 2 = (Ok _, _)) by (vm_compute; reflexivity);
    match type of H2 with _ = (Ok ?tr, ?v') =>
      exists v, tr, v'; exact (conj H1 (conj H2 (track_values_scaled _ _ _ _ H2)))
    end
  end.
Defined.

(** ** C9: the exported CSV file *)

(** C9 (counterexample): the ABP track (devid 7) of [dir/case1.vital] is
    saved as [converted/case1_ABP.csv]: no [_signal_], no devid, no gzip. *)
Lemma csv_name_without_devid :
  exists v tr v',
    Vital_init accept_all (bytes "dir/case1.vital") ex_wave = Ok v /\
    get_track v (Some 2) None = (Ok tr, v') /\
    devid (tinfo tr) = 7 /\
    save_to_file (fun _ => Ok []) tr None None =
      Ok (bytes "converted", bytes "case1_ABP.csv", []) /\
    bytes "case1_ABP.csv" <> bytes "case1_signal_ABP_7.csv" /\
    bytes "case1_ABP.csv" <> bytes "case1_signal_ABP_7.csv.gz".
Proof.
  assert (H1 : Vital_init accept_all (bytes "dir/case1.vital") ex_wave = Ok _)
    by (vm_compute; reflexivity).
  match type of H1 with _ = Ok ?v =>
    assert (H2 : get_track v (Some 2) None = (Ok _, _)) by (vm_compute; reflexivity);
    match type of H2 with _ = (Ok ?tr, ?v') =>
      exists v, tr, v'; split; [exact H1|]; split; [exact H2|];
      split; [vm_compute; reflexivity|]; split; [vm_compute; reflexivity|];
      split; vm_compute; discriminate
    end
  end.
Qed.

(** C9 (amended): with no arguments, a track is saved in the folder
    [converted] under the name [<input_stem>_<track_name>.csv] (never
    gzipped), and the file holds one [index,value] line per entry of the
    series, with no header line. *)
Theorem save_to_file_layout to_pandas_rows tr rows :
  to_pandas_rows tr = Ok rows ->
  save_to_file to_pandas_rows tr None None =
    Ok (bytes "converted",
        path_stem (tpath tr) ++ bytes "_" ++ name (tinfo tr) ++ bytes ".csv",
        map (fun row => row.1 ++ bytes "," ++ row.2) rows) /\
  length (map csv_row rows) = length rows.
Proof.
  intros H. unfold save_to_file. rewrite H. split; [reflexivity|]. apply length_map.
Qed.

Lemma save_to_file_layout_witness :
  exists v tr v',
    Vital_init accept_all (bytes "dir/case1.vital") ex_wave = Ok v /\
    get_track v (Some 2) None = (Ok tr, v') /\
    (fun _ : track => Ok [(bytes "0", bytes "5.0")]) tr = Ok [(bytes "0", bytes "5.0")] /\
    (save_to_file (fun _ => Ok [(bytes "0", bytes "5.0")]) tr None None =
       Ok (bytes "converted",
           path_stem (tpath tr) ++ bytes "_" ++ name (tinfo tr) ++ bytes ".csv",
           map (fun row => row.1 ++ bytes "," ++ row.2) [(bytes "0", bytes "5.0")]) /\
     length (map csv_row [(bytes "0", bytes "5.0")]) = length [(bytes "0", bytes "5.0")]).
Proof.
  assert (H1 : Vital_init accept_all (bytes "dir/case1.vital") ex_wave = Ok _)
    by (vm_compute; reflexivity).
  match type of H1 with _ = Ok ?v =>
    assert (H2 : get_track v (Some 2) None = (Ok _, _)) by (vm_compute; reflexivity);
    match type of H2 with _ = (Ok ?tr, ?v') =>
      exists v, tr, v';
      assert (H3 : (fun _ : track => Ok [(bytes "0", bytes "5.0")]) tr
                   = Ok [(bytes "0", bytes "5.0")]) by reflexivity;
      exact (conj H1 (conj H2 (conj H3 (save_to_file_layout _ tr _ H3))))
    end
  end.
Defined.

(** ** C10: [get_track] without a query *)

(** C10: [get_track] with neither a trkid nor a name raises ValueError and
    leaves the [Vital] object (its file model) unchanged. *)
Theorem get_track_no_query v : get_track v None None = (Err ValueError, v).
Proof. reflexivity. Qed.

(** ** C6: the REC payload budget *)

(** C6: a REC packet of a waveform, numeric or string track consists of the
    17 bytes up to and including its trkid, then a budget of exactly
    [datalen - infolen - 2] bytes in which the variant decoder reads a prefix
    [pre] and the [surplus] is skipped, then whatever is left of [datalen];
    the next packet starts right after the packet's [datalen + 5] bytes. *)
Theorem rec_payload_budget ok reg s p reg' s' r :
  body_str ok reg s = Ok ((p, reg'), s') -> data p = DRec r ->
  In (rec_rec_type r) [1; 2; 5] ->
  exists hdr pre surplus rest info,
    s = hdr ++ pre ++ surplus ++ rest ++ s' /\
    length hdr = 17%nat /\
    Z.of_nat (length (pre ++ surplus)) = datalen p - infolen r - 2 /\
    Z.of_nat (length s) = Z.of_nat (length s') + 5 + datalen p /\
    reg !! rec_trkid r = Some info /\ rec_type info = rec_rec_type r /\
    (match rec_type info with
     | 1 => rec_wav_str (recfmt info)
     | 2 => rec_num_str (recfmt info)
     | _ => rec_str_str
     end) (pre ++ surplus ++ rest ++ s') = Ok (values r, surplus ++ rest ++ s').
Proof.
  intros H Hd Hrt. pose proof (body_str_length _ _ _ _ _ _ H) as [_ Hlen].
  unfold body_str in H. inv_bind H. inv_bind H.
  apply OneOf_Ok in Hp as [Hin Hp].
  apply int_ul_Ok in Hp as (b1 & -> & Hl1 & _).
  apply int_ul_Ok in Hp0 as (b4 & -> & Hl4 & ->).
  destruct Hin as [<-|[<-|[<-|[<-|[]]]]]; cbv beta iota in H; inv_bind H;
    injection H as <- _ <-; simpl in Hd; try discriminate.
  injection Hd as ->.
  destruct (Padded_Ok _ _ _ _ _ (rec_str_suffix ok reg _) Hp) as (preA & surA & _ & _ & Hr).
  unfold rec_str in Hr. inv_bind Hr. inv_bind Hr. inv_bind Hr.
  apply int_ul_Ok in Hp0 as (w2 & -> & Hw2 & ->).
  apply Timestamp__Ok in Hp1 as (t8 & -> & Ht8).
  apply int_ul_Ok in Hp2 as (w2' & -> & Hw2' & ->).
  destruct (reg !! le_value w2') as [info|] eqn:Hreg; [|discriminate].
  inv_bind Hr. injection Hr as <- ->. simpl in Hrt |- *.
  assert (Hv : forall A (q : parser A) b (x : A) s0,
            Padded b q s0 = Ok (x, surA ++ s) -> suffix_parser q ->
            exists pre surplus, s0 = pre ++ surplus ++ surA ++ s /\
              Z.of_nat (length pre + length surplus) = b /\
              q s0 = Ok (x, surplus ++ surA ++ s)).
  { intros A q b x s0 Hpad Hq. exact (Padded_Ok _ _ _ _ _ Hq Hpad). }
  unfold rec_values_str in Hp0.
  destruct Hrt as [E|[E|[E|[]]]]; rewrite <- E in Hp0 |- *;
    destruct (Hv _ _ _ _ _ Hp0 ltac:(eauto with suffix)) as (pre & surplus & -> & Hb & Hq);
    exists (b1 ++ b4 ++ w2 ++ t8 ++ w2'), pre, surplus, surA, info;
    (split; [rewrite <- !app_assoc; reflexivity|]);
    (split; [rewrite !length_app; lia|]);
    (split; [rewrite length_app; exact Hb|]);
    (split; [simpl in Hlen |- *; rewrite !length_app in *; lia|]);
    (split; [exact Hreg|]); (split; [symmetry; exact E | rewrite <- E; exact Hq]).
Qed.

Lemma rec_payload_budget_witness :
  exists reg s p reg' s' r,
    body_str accept_all reg s = Ok ((p, reg'), s') /\ data p = DRec r /\
    In (rec_rec_type r) [1; 2; 5] /\
    exists hdr pre surplus rest info,
      s = hdr ++ pre ++ surplus ++ rest ++ s' /\
      length hdr = 17%nat /\
      Z.of_nat (length (pre ++ surplus)) = datalen p - infolen r - 2 /\
      Z.of_nat (length s) = Z.of_nat (length s') + 5 + datalen p /\
      reg !! rec_trkid r = Some info /\ rec_type info = rec_rec_type r /\
      (match rec_type info with
       | 1 => rec_wav_str (recfmt info)
       | 2 => rec_num_str (recfmt info)
       | _ => rec_str_str
       end) (pre ++ surplus ++ rest ++ s') = Ok (values r, surplus ++ rest ++ s').
Proof.
  assert (H0 : body_str accept_all ∅ (drop 20 ex_rec_surplus) = Ok ((_, _), _))
    by (vm_compute; reflexivity).
  match type of H0 with _ = Ok ((_, ?reg), ?s) =>
    assert (H1 : body_str accept_all reg s = Ok ((_, _), _)) by (vm_compute; reflexivity);
    match type of H1 with _ = Ok ((?p, ?reg'), ?s') =>
      assert (H2 : data p = DRec _) by (vm_compute; reflexivity);
      match type of H2 with _ = DRec ?r =>
        assert (H3 : In (rec_rec_type r) [1; 2; 5]) by (vm_compute; auto);
        exists reg, s, p, reg', s', r;
        exact (conj H1 (conj H2 (conj H3 (rec_payload_budget _ _ _ _ _ _ _ H1 H2 H3))))
      end
    end
  end.
Defined.

(** ** Parsed files are well formed *)

Lemma prepeat_length {A} n (p : parser A) s l s' :
  prepeat n p s = Ok (l, s') -> length l = n.
Proof.
  revert s l s'. induction n as [|n IH]; intros s l s' H; cbn [prepeat] in H.
  - injection H as <- _. reflexivity.
  - inv_bind H. inv_bind H. injection H as <- _. simpl. f_equal. eapply IH. exact Hp0.
Qed.

Lemma Array_length {A} c (p : parser A) s l s' :
  Array_ c p s = Ok (l, s') -> Z.of_nat (length l) = c.
Proof.
  unfold Array_. intros H. destruct (c <? 0) eqn:E; [discriminate|].
  apply prepeat_length in H. apply Z.ltb_ge in E. lia.
Qed.

Lemma recfmt_str_length fmt s l s' :
  recfmt_str fmt 1 s = Ok (l, s') -> length l = 1%nat.
Proof.
  unfold recfmt_str. intros H. repeat case_match; subst;
    first [discriminate | apply Array_length in H; lia].
Qed.

Lemma rec_values_str_other info b :
  ~ In (rec_type info) [1; 2; 5] ->
  rec_values_str info b = (bs <- Array_ b Byte_ ;; pret (RawBytes bs)).
Proof.
  unfold rec_values_str. generalize (rec_type info) as rt. intros rt Hn.
  repeat case_match; subst; first [reflexivity | exfalso; apply Hn; simpl; auto].
Qed.

Lemma convert_rec_other info r :
  ~ In (rec_type info) [1; 2; 5] -> convert_rec info r = Err RecTypeException.
Proof.
  unfold convert_rec. generalize (rec_type info) as rt. intros rt Hn.
  repeat case_match; subst; first [reflexivity | exfalso; apply Hn; simpl; auto].
Qed.

Lemma rec_values_kind info b s vs s' :
  rec_values_str info b s = Ok (vs, s') -> kind_ok (rec_type info) vs.
Proof.
  intros H. destruct (decide (In (rec_type info) [1; 2; 5])) as [Hin|Hn].
  - unfold rec_values_str in H.
    destruct Hin as [E|[E|[E|[]]]]; rewrite <- E in H |- *; cbv beta iota in H;
      apply Padded_Ok in H as (pre & sur & Hs & Hl & Hq); try solve [eauto with suffix];
      unfold rec_wav_str, rec_num_str, rec_str_str in Hq; inv_binds;
      injection Hq as <- _; simpl; auto.
    split; [reflexivity|]. eapply recfmt_str_length. exact Hp.
  - rewrite rec_values_str_other in H by exact Hn. inv_bind H.
    injection H as <- _. exact Hn.
Qed.

Lemma body_str_wf ok reg s p reg' s' :
  body_str ok reg s = Ok ((p, reg'), s') -> reg' = reg_step reg p /\ pkt_ok reg p.
Proof.
  unfold body_str. intros H. inv_bind H. inv_bind H.
  apply OneOf_Ok in Hp as [Hin _].
  destruct Hin as [<-|[<-|[<-|[<-|[]]]]]; cbv beta iota in H; inv_bind H;
    injection H as <- <- _; unfold reg_step, pkt_ok; simpl; split; auto.
  apply Padded_Ok in Hp as (pre & sur & Hs & Hl & Hq); [|eauto with suffix].
  unfold rec_str in Hq. inv_bind Hq. inv_bind Hq. inv_bind Hq.
  match type of Hq with context [reg !! ?k] =>
    destruct (reg !! k) as [info|] eqn:Hreg; [|discriminate] end.
  inv_bind Hq. injection Hq as <- _. simpl.
  exists info. split; [exact Hreg|].
  match goal with H : rec_values_str _ _ _ = Ok _ |- _ => exact (rec_values_kind _ _ _ _ _ H) end.
Qed.

Lemma body_loop_wf ok fuel reg s acc body :
  body_loop ok fuel reg s acc = Ok body -> exists rest, body = acc ++ rest /\ body_wf reg rest.
Proof.
  revert reg s acc. induction fuel as [|fuel IH]; intros reg s acc H; cbn [body_loop] in H;
    [discriminate|].
  destruct (body_str ok reg s) as [[[p reg'] s']|e] eqn:E.
  - apply IH in H as (rest & -> & Hwf). apply body_str_wf in E as [-> Hp].
    exists (p :: rest). split; [rewrite <- app_assoc; reflexivity|]. simpl. auto.
  - destruct e; try discriminate. injection H as <-. exists []. split; [symmetry; apply app_nil_r|].
    exact I.
Qed.

Lemma Vital_init_wf ok path s v :
  Vital_init ok path s = Ok v -> body_wf ∅ (file_body (file v)).
Proof.
  unfold Vital_init, load_vital. intros H.
  destruct (header_str s) as [[h s1]|e]; [|discriminate].
  destruct (parse_packets ok s1) as [body|e] eqn:Hb; [|discriminate].
  destruct (_ =? _); [|discriminate]. injection H as <-. simpl.
  unfold parse_packets in Hb. apply body_loop_wf in Hb as (rest & -> & Hwf). exact Hwf.
Qed.

(** With a single TRKINFO for [t], every REC of [t] has the shape of its rec_type. *)
Lemma wf_rec_kind reg body t info :
  body_wf reg body ->
  (forall i, reg !! t = Some i -> i = info) ->
  (forall i, In i (omap (fun p => match data p with DTrk t => Some t | _ => None end) body) ->
     trkid i = t -> i = info) ->
  forall r, In r (omap (fun p => match data p with DRec r => Some r | _ => None end) body) ->
    rec_trkid r = t -> kind_ok (rec_type info) (values r).
Proof.
  revert reg. induction body as [|p ps IH]; intros reg Hwf Hreg Htrk r Hr Ht; [destruct Hr|].
  destruct Hwf as [Hp Hws]. unfold pkt_ok, reg_step in Hp, Hws. simpl in Htrk, Hr.
  destruct (data p) as [i0|r0|c|d|]; simpl in Htrk, Hr.
  - apply (IH _ Hws); auto.
    intros i Hi. destruct (decide (trkid i0 = t)) as [<-|Hne].
    + rewrite lookup_insert_eq in Hi. injection Hi as <-. apply Htrk; auto.
    + rewrite lookup_insert_ne in Hi by exact Hne. auto.
  - destruct Hr as [<-|Hr]; [|exact (IH _ Hws Hreg Htrk r Hr Ht)].
    destruct Hp as (info' & Hi & Hk). rewrite Ht in Hi. apply Hreg in Hi. subst info'. exact Hk.
  - exact (IH _ Hws Hreg Htrk r Hr Ht).
  - exact (IH _ Hws Hreg Htrk r Hr Ht).
  - exact (IH _ Hws Hreg Htrk r Hr Ht).
Qed.

(** ** When [Track] succeeds *)

Lemma convert_body_None_iff info t ps :
  snd (convert_body info t ps) = None <->
  (forall r, In r (omap (fun p => match data p with DRec r => Some r | _ => None end) ps) ->
     rec_trkid r = t -> exists r', convert_rec info r = Ok r').
Proof.
  induction ps as [|p ps IH]; simpl.
  - split; [intros _ r []|reflexivity].
  - destruct (data p) as [i|r|c|d|] eqn:Ed; simpl;
      [| destruct (rec_trkid r =? t) eqn:Et;
         [destruct (convert_rec info r) as [r'|e] eqn:Ec|] | | |];
      try (destruct (convert_body info t ps) as [ps'' e] eqn:E; simpl in IH |- *).
    + exact IH.
    + rewrite IH. split.
      * intros H r0 [<-|Hin] Ht; eauto.
      * intros H r0 Hin Ht. apply H; auto.
    + split; [discriminate|]. intros H.
      destruct (H r (or_introl eq_refl)) as [r' Hr']; [apply Z.eqb_eq; exact Et|congruence].
    + rewrite IH. apply Z.eqb_neq in Et. split.
      * intros H r0 [<-|Hin] Ht; [contradiction|auto].
      * intros H r0 Hin Ht. apply H; auto.
    + exact IH.
    + exact IH.
    + exact IH.
Qed.

Lemma Track_init_succeeds v t :
  (exists tr v', Track_init v t = (Ok tr, v')) <->
  exists info, List.filter (fun i => trkid i =? t) (track_info v) = [info] /\
    (forall r, In r (recs v) -> rec_trkid r = t -> exists r', convert_rec info r = Ok r').
Proof.
  unfold Track_init, recs.
  destruct (List.filter (fun i => trkid i =? t) (track_info v)) as [|info [|i l]].
  - split; [intros (tr & v' & H); discriminate | intros (info & H & _); discriminate].
  - split.
    + intros (tr & v' & H). exists info. split; [reflexivity|].
      apply convert_body_None_iff.
      destruct (convert_body info t (file_body (file v))) as [ps' [e|]]; simpl;
        [discriminate|reflexivity].
    + intros (info' & Hi & Hc). injection Hi as <-. apply convert_body_None_iff in Hc.
      destruct (convert_body _ t (file_body (file v))) as [ps' e]; simpl in Hc; subst e.
      eexists _, _; reflexivity.
  - split; [intros (tr & v' & H); discriminate | intros (info0 & H & _); discriminate].
Qed.

Lemma convert_rec_kind info r :
  kind_ok (rec_type info) (values r) ->
  (In (rec_type info) [1; 2; 5] <-> exists r', convert_rec info r = Ok r').
Proof.
  destruct (values r) as [n f vals|f l|u sv o|bs] eqn:Ev; simpl; intros Hk.
  - unfold convert_rec. rewrite Hk, Ev.
    split; [intros _; eexists; reflexivity | intros _; simpl; auto].
  - destruct Hk as [Hk Hl]. destruct l as [|x [|y l]]; simpl in Hl; try lia.
    unfold convert_rec. rewrite Hk, Ev.
    split; [intros _; eexists; reflexivity | intros _; simpl; auto].
  - unfold convert_rec. rewrite Hk, Ev.
    split; [intros _; eexists; reflexivity | intros _; simpl; auto].
  - split; [contradiction|].
    rewrite convert_rec_other by exact Hk. intros (r' & H). discriminate.
Qed.

Lemma Track_init_parsed ok path s v t :
  Vital_init ok path s = Ok v ->
  ((exists tr v', Track_init v t = (Ok tr, v')) <->
   exists info, List.filter (fun i => trkid i =? t) (track_info v) = [info] /\
     (In (rec_type info) [1; 2; 5] \/ recs_of v t = [])).
Proof.
  intros Hv. pose proof (Vital_init_wf _ _ _ _ Hv) as Hwf.
  rewrite Track_init_succeeds.
  split; intros (info & Hf & H); exists info; split; auto;
    assert (Hkind : forall r, In r (recs v) -> rec_trkid r = t -> kind_ok (rec_type info) (values r))
      by (intros r Hr Ht; refine (wf_rec_kind ∅ _ t info Hwf _ _ r Hr Ht);
          [intros i Hi; rewrite lookup_empty in Hi; discriminate
          |intros i Hi Hti; assert (Hin : In i [info])
             by (rewrite <- Hf; apply filter_In; split; [exact Hi|apply Z.eqb_eq; exact Hti]);
           destruct Hin as [<-|[]]; reflexivity]).
  - destruct (recs_of v t) as [|r rs] eqn:Er; [right; reflexivity|left].
    assert (Hr : In r (recs_of v t)) by (rewrite Er; left; reflexivity).
    unfold recs_of in Hr. apply filter_In in Hr as [Hr Ht]. apply Z.eqb_eq in Ht.
    apply (convert_rec_kind info r (Hkind r Hr Ht)). exact (H r Hr Ht).
  - intros r Hr Ht. destruct H as [Hin|Hnil].
    + apply (convert_rec_kind info r (Hkind r Hr Ht)). exact Hin.
    + assert (Hr' : In r (recs_of v t))
        by (unfold recs_of; apply filter_In; split; [exact Hr|apply Z.eqb_eq; exact Ht]).
      rewrite Hnil in Hr'. destruct Hr'.
Qed.

(** ** C7: [get_track] with a trkid, a name or both *)

(** C7 (counterexample): two TRKINFO packets share trkid 1, one named A and
    one named B; the name A resolves uniquely to trkid 1, yet
    [get_track(trkid=1, name=A)] fails with ValueError, raised by [Track]. *)
Lemma name_resolves_but_fails :
  exists v, Vital_init accept_all (bytes "case2.vital") ex_same_trkid = Ok v /\
    trkids_named v (bytes "A") = [1] /\
    get_track v (Some 1) (Some (bytes "A")) = (Err ValueError, v).
Proof.
  assert (H1 : Vital_init accept_all (bytes "case2.vital") ex_same_trkid = Ok _)
    by (vm_compute; reflexivity).
  match type of H1 with _ = Ok ?v =>
    exists v; split; [exact H1|]; split; vm_compute; reflexivity
  end.
Qed.

(** C7 (amended): on a parsed file, [get_track(trkid=t, name=n)] succeeds
    exactly when [n] is the name of exactly one track-info entry, that
    entry has trkid [t], exactly one entry has trkid [t], and that entry's
    rec_type is 1, 2 or 5 or no REC has trkid [t]; a name-only query fails
    with ValueError when zero or several entries bear the name; when [n]
    resolves to [t], the name-only and the trkid-only queries give the same
    result as the full query. *)
Theorem get_track_query ok path s v t n :
  Vital_init ok path s = Ok v ->
  ((exists tr v', get_track v (Some t) (Some n) = (Ok tr, v')) <->
     trkids_named v n = [t] /\
     exists info, List.filter (fun i => trkid i =? t) (track_info v) = [info] /\
       (In (rec_type info) [1; 2; 5] \/ recs_of v t = [])) /\
  (length (trkids_named v n) <> 1%nat -> get_track v None (Some n) = (Err ValueError, v)) /\
  (trkids_named v n = [t] ->
     get_track v None (Some n) = get_track v (Some t) (Some n) /\
     get_track v (Some t) None = get_track v (Some t) (Some n)).
Proof.
  intros Hv. split; [|split].
  - unfold get_track. destruct (trkids_named v n) as [|t' [|t'' l]].
    + split; [intros (tr & v' & H); discriminate | intros [H _]; discriminate].
    + destruct (Z.eqb_spec t t') as [<-|Hne].
      * rewrite <- (Track_init_parsed ok path s v t Hv). split; [intros H; split; auto|].
        intros [_ H]. exact H.
      * split; [intros (tr & v' & H); discriminate | intros [H _]; congruence].
    + split; [intros (tr & v' & H); discriminate | intros [H _]; discriminate].
  - intros Hl. unfold get_track.
    destruct (trkids_named v n) as [|a [|b l]]; simpl in Hl; [reflexivity|lia|reflexivity].
  - intros Hn. unfold get_track. rewrite Hn, Z.eqb_refl. split; reflexivity.
Qed.

Lemma get_track_query_witness :
  exists v,
    Vital_init accept_all (bytes "case1.vital") ex_wave = Ok v /\
    ((exists tr v', get_track v (Some 2) (Some (bytes "ABP")) = (Ok tr, v')) <->
       trkids_named v (bytes "ABP") = [2] /\
       exists info, List.filter (fun i => trkid i =? 2) (track_info v) = [info] /\
         (In (rec_type info) [1; 2; 5] \/ recs_of v 2 = [])) /\
    (length (trkids_named v (bytes "ABP")) <> 1%nat ->
       get_track v None (Some (bytes "ABP")) = (Err ValueError, v)) /\
    (trkids_named v (bytes "ABP") = [2] ->
       get_track v None (Some (bytes "ABP")) = get_track v (Some 2) (Some (bytes "ABP")) /\
       get_track v (Some 2) None = get_track v (Some 2) (Some (bytes "ABP"))).
Proof.
  assert (H1 : Vital_init accept_all (bytes "case1.vital") ex_wave = Ok _)
    by (vm_compute; reflexivity).
  match type of H1 with _ = Ok ?v =>
    exists v; exact (conj H1 (get_track_query _ _ _ _ 2 (bytes "ABP") H1))
  end.
Defined.

(** * Further properties of the decoder *)

(** ** Fixed-width integers *)

Lemma byte_of_Z_to_N z : Z.of_N (Byte.to_N (byte_of_Z z)) = z mod 256.
Proof.
  unfold byte_of_Z. pose proof (Z.mod_pos_bound z 256 ltac:(lia)).
  destruct (Byte.of_N (Z.to_N (z mod 256))) as [b|] eqn:E.
  - apply Byte.to_of_N in E. rewrite E. lia.
  - apply Byte.of_N_None_iff in E. lia.
Qed.

Lemma mod_mul_split a b c : 0 < b -> 0 < c -> a mod (b * c) = a mod b + b * ((a / b) mod c).
Proof.
  intros Hb Hc. rewrite !Z.mod_eq by lia. rewrite <- Z.div_div by lia. ring.
Qed.

Lemma le_value_shifts z k w :
  le_value (map (fun i => byte_of_Z (Z.shiftr z (8 * Z.of_nat i))) (seq k w)) =
  Z.shiftr z (8 * Z.of_nat k) mod 2 ^ (8 * Z.of_nat w).
Proof.
  revert k. induction w as [|w IH]; intros k.
  - simpl. rewrite Z.mod_1_r. reflexivity.
  - cbn [seq map le_value fold_right]. fold (le_value (map (fun i => byte_of_Z (Z.shiftr z (8 * Z.of_nat i))) (seq (S k) w))).
    rewrite IH, byte_of_Z_to_N.
    replace (8 * Z.of_nat (S k)) with (8 * Z.of_nat k + 8) by lia.
    rewrite <- Z.shiftr_shiftr by lia. rewrite Z.shiftr_div_pow2 with (n := 8) by lia.
    replace (2 ^ (8 * Z.of_nat (S w))) with (2 ^ 8 * 2 ^ (8 * Z.of_nat w))
      by (rewrite <- Z.pow_add_r by lia; f_equal; lia).
    rewrite mod_mul_split by lia. reflexivity.
Qed.

Lemma le_value_le_bytes w z : le_value (le_bytes w z) = z mod 2 ^ (8 * Z.of_nat w).
Proof. unfold le_bytes. rewrite le_value_shifts. simpl. rewrite Z.shiftr_0_r. reflexivity. Qed.

Lemma le_bytes_length w z : length (le_bytes w z) = w.
Proof. unfold le_bytes. rewrite length_map, length_seq. reflexivity. Qed.

Lemma le_value_bound bs : le_value bs < 2 ^ (8 * Z.of_nat (length bs)).
Proof.
  induction bs as [|b bs IH]; simpl; [lia|].
  pose proof (Byte.to_N_bounded b).
  replace (8 * Z.of_nat (S (length bs))) with (8 + 8 * Z.of_nat (length bs)) by lia.
  rewrite Z.pow_add_r by lia. lia.
Qed.

Lemma le_bytes_S w z : le_bytes (S w) z = byte_of_Z z :: le_bytes w (Z.shiftr z 8).
Proof.
  unfold le_bytes. cbn [seq map]. rewrite Z.shiftr_0_r. f_equal.
  rewrite <- seq_shift, map_map. apply map_ext. intros i.
  rewrite Z.shiftr_shiftr by lia. f_equal. f_equal. lia.
Qed.

Lemma byte_of_Z_le b acc : byte_of_Z (Z.of_N (Byte.to_N b) + 256 * acc) = b.
Proof.
  unfold byte_of_Z. pose proof (Byte.to_N_bounded b).
  rewrite Z.mul_comm, Z.mod_add by lia. rewrite Z.mod_small by lia.
  rewrite N2Z.id, Byte.of_to_N. reflexivity.
Qed.

Lemma le_bytes_le_value bs : le_bytes (length bs) (le_value bs) = bs.
Proof.
  induction bs as [|b bs IH]; [reflexivity|].
  cbn [length]. rewrite le_bytes_S. simpl le_value.
  rewrite byte_of_Z_le. f_equal.
  pose proof (Byte.to_N_bounded b). pose proof (le_value_nonneg bs).
  rewrite Z.shiftr_div_pow2 by lia.
  replace (Z.of_N (Byte.to_N b) + 256 * le_value bs) with
    (Z.of_N (Byte.to_N b) + le_value bs * 2 ^ 8) by lia.
  rewrite Z.div_add by lia. rewrite Z.div_small by lia. exact IH.
Qed.

Lemma le_bytes_mod w z : le_bytes w (z mod 2 ^ (8 * Z.of_nat w)) = le_bytes w z.
Proof.
  rewrite <- le_value_le_bytes. rewrite <- (le_bytes_length w z) at 1.
  apply le_bytes_le_value.
Qed.

Lemma int_ul_iff w s v s' :
  int_ul w s = Ok (v, s') <-> 0 <= v < 2 ^ (8 * Z.of_nat w) /\ s = le_bytes w v ++ s'.
Proof.
  split.
  - intros H. apply int_ul_Ok in H as (bs & -> & <- & ->).
    split; [split; [apply le_value_nonneg|apply le_value_bound]|].
    rewrite le_bytes_le_value. reflexivity.
  - intros [Hr ->]. rewrite int_ul_app by apply le_bytes_length.
    rewrite le_value_le_bytes, Z.mod_small by exact Hr. reflexivity.
Qed.

Lemma int_sl_iff w s v s' :
  (0 < w)%nat ->
  int_sl w s = Ok (v, s') <->
  - 2 ^ (8 * Z.of_nat w - 1) <= v < 2 ^ (8 * Z.of_nat w - 1) /\ s = le_bytes w v ++ s'.
Proof.
  intros Hw.
  assert (Hp : 2 ^ (8 * Z.of_nat w) = 2 * 2 ^ (8 * Z.of_nat w - 1))
    by (rewrite <- Z.pow_succ_r by lia; f_equal; lia).
  assert (Hpos : 0 < 2 ^ (8 * Z.of_nat w - 1)) by (apply Z.pow_pos_nonneg; lia).
  unfold int_sl. split.
  - intros H. inv_bind H. apply int_ul_iff in Hp0 as [Hr ->].
    injection H as <- <-.
    destruct (v0 <? 2 ^ (8 * Z.of_nat w - 1)) eqn:E.
    + apply Z.ltb_lt in E. split; [lia|reflexivity].
    + apply Z.ltb_ge in E. split; [lia|].
      rewrite <- (le_bytes_mod w (v0 - _)).
      replace ((v0 - 2 ^ (8 * Z.of_nat w)) mod 2 ^ (8 * Z.of_nat w)) with v0; [reflexivity|].
      replace (v0 - 2 ^ (8 * Z.of_nat w)) with (v0 + (-1) * 2 ^ (8 * Z.of_nat w)) by ring.
      rewrite Z.mod_add, Z.mod_small by lia. reflexivity.
  - intros [Hr ->].
    rewrite <- (le_bytes_mod w v).
    rewrite (pbind_step _ _ _ (v mod 2 ^ (8 * Z.of_nat w)) s')
      by (apply int_ul_iff; split; [apply Z.mod_pos_bound; lia|reflexivity]).
    unfold pret. destruct (Z.le_gt_cases 0 v) as [Hv|Hv].
    + rewrite Z.mod_small by lia. replace (v <? _) with true by (symmetry; apply Z.ltb_lt; lia).
      reflexivity.
    + replace (v mod 2 ^ (8 * Z.of_nat w)) with (v + 2 ^ (8 * Z.of_nat w)).
      * replace (_ <? _) with false by (symmetry; apply Z.ltb_ge; lia).
        do 3 f_equal. lia.
      * rewrite <- (Z.mod_small (v + 2 ^ (8 * Z.of_nat w)) (2 ^ (8 * Z.of_nat w))) by lia.
        replace (v + 2 ^ (8 * Z.of_nat w)) with (v + 1 * 2 ^ (8 * Z.of_nat w)) by ring.
        rewrite Z.mod_add by lia. reflexivity.
Qed.

Lemma Const__iff e s bs s' : Const_ e s = Ok (bs, s') <-> bs = e /\ s = e ++ s'.
Proof.
  unfold Const_. split.
  - intros H. inv_bind H. apply stream_read_Ok in Hp as (_ & _ & -> & Hl).
    case_bool_decide as E; [|discriminate]. injection H as <- <-. subst. auto.
  - intros [-> ->]. unfold pbind, stream_read.
    replace (Z.of_nat (length e) <? 0) with false by (symmetry; apply Z.ltb_ge; lia).
    replace (Z.of_nat (length (e ++ s')) <? Z.of_nat (length e)) with false
      by (symmetry; apply Z.ltb_ge; rewrite length_app; lia).
    rewrite Nat2Z.id, take_app_length, drop_app_length. simpl.
    rewrite bool_decide_true by reflexivity. reflexivity.
Qed.

Lemma header_str_iff s h s' :
  header_str s = Ok (h, s') <->
  sig h = sig_VITA /\
  0 <= format_ver h < 2 ^ 32 /\ 0 <= headerlen h < 2 ^ 16 /\
  - 2 ^ 15 <= tzbias h < 2 ^ 15 /\ 0 <= inst_id h < 2 ^ 32 /\ 0 <= prog_ver h < 2 ^ 32 /\
  s = sig_VITA ++ le_bytes 4 (format_ver h) ++ le_bytes 2 (headerlen h) ++
      le_bytes 2 (tzbias h) ++ le_bytes 4 (inst_id h) ++ le_bytes 4 (prog_ver h) ++ s'.
Proof.
  unfold header_str, DWORD, WORD, short. split.
  - intros H. inv_binds. injection H as <- <-.
    apply Const__iff in Hp as [-> ->].
    apply int_ul_iff in Hp0 as [R1 ->]. apply int_ul_iff in Hp1 as [R2 ->].
    apply (int_sl_iff 2) in Hp2 as [R3 ->]; [|lia].
    apply int_ul_iff in Hp3 as [R4 ->]. apply int_ul_iff in Hp4 as [R5 ->].
    simpl in *. repeat split; lia.
  - destruct h as [sg fv hl tz ii pv]; simpl.
    intros (-> & R1 & R2 & R3 & R4 & R5 & ->).
    rewrite (pbind_step _ _ _ sig_VITA _) by (apply Const__iff; auto).
    rewrite (pbind_step _ _ _ fv _) by (apply int_ul_iff; auto).
    rewrite (pbind_step _ _ _ hl _) by (apply int_ul_iff; auto).
    rewrite (pbind_step _ _ _ tz _) by (apply (int_sl_iff 2); [lia|]; simpl; auto).
    rewrite (pbind_step _ _ _ ii _) by (apply int_ul_iff; auto).
    rewrite (pbind_step _ _ _ pv _) by (apply int_ul_iff; auto).
    reflexivity.
Qed.

Lemma header_str_Err s :
  ((length s < 4)%nat -> header_str s = Err StreamError) /\
  ((4 <= length s)%nat -> take 4 s <> sig_VITA -> header_str s = Err ConstError) /\
  (take 4 s = sig_VITA -> (length s < 20)%nat -> header_str s = Err StreamError).
Proof.
  unfold header_str. split; [|split].
  - intros Hl. apply pbind_Err. unfold Const_. apply pbind_Err.
    apply stream_read_short; simpl; lia.
  - intros Hl Hne.
    assert (Hr : stream_read (Z.of_nat (length sig_VITA)) s = Ok (take 4 s, drop 4 s)).
    { unfold stream_read.
      replace (Z.of_nat (length s) <? Z.of_nat (length sig_VITA)) with false
        by (symmetry; apply Z.ltb_ge; simpl; lia). reflexivity. }
    apply pbind_Err. unfold Const_. rewrite (pbind_step _ _ _ _ _ Hr).
    rewrite bool_decide_false by exact Hne. reflexivity.
  - intros Ht Hl. rewrite <- (take_drop 4 s) in Hl |- *. rewrite Ht in Hl |- *.
    rewrite length_app in Hl. simpl in Hl.
    revert Hl. generalize (drop 4 s) as r. intros r Hr.
    do 16 (destruct r as [|? r]; [vm_compute; reflexivity|]). simpl in Hr. lia.
Qed.

Lemma stream_read_app bs s : stream_read (Z.of_nat (length bs)) (bs ++ s) = Ok (bs, s).
Proof.
  unfold stream_read.
  replace (Z.of_nat (length bs) <? 0) with false by (symmetry; apply Z.ltb_ge; lia).
  replace (Z.of_nat (length (bs ++ s)) <? Z.of_nat (length bs)) with false
    by (symmetry; apply Z.ltb_ge; rewrite length_app; lia).
  rewrite Nat2Z.id, take_app_length, drop_app_length. reflexivity.
Qed.

Lemma String__iff s bs s' :
  String_ s = Ok (bs, s') <->
  utf8_valid bs = true /\ Z.of_nat (length bs) < 2 ^ 32 /\
  s = le_bytes 4 (Z.of_nat (length bs)) ++ bs ++ s'.
Proof.
  unfold String_, DWORD. split.
  - intros H. inv_binds. apply int_ul_iff in Hp as [Hr ->].
    apply stream_read_Ok in Hp0 as (Hn & _ & -> & Hl).
    destruct (utf8_valid v0) eqn:Ev; [|discriminate]. injection H as <- <-.
    rewrite Hl, Z2Nat.id by lia. simpl in Hr. repeat split; auto; lia.
  - intros (Hv & Hl & ->).
    rewrite (pbind_step _ _ _ (Z.of_nat (length bs)) (bs ++ s'))
      by (apply int_ul_iff; simpl; split; [lia|reflexivity]).
    rewrite (pbind_step _ _ _ bs s') by apply stream_read_app.
    rewrite Hv. reflexivity.
Qed.

Lemma String__Err n s bs :
  (0 <= n < 2 ^ 32 -> Z.of_nat (length s) < n -> String_ (le_bytes 4 n ++ s) = Err StreamError) /\
  (Z.of_nat (length bs) < 2 ^ 32 -> utf8_valid bs = false ->
     String_ (le_bytes 4 (Z.of_nat (length bs)) ++ bs ++ s) = Err UnicodeDecodeError).
Proof.
  unfold String_, DWORD. split.
  - intros Hr Hl.
    rewrite (pbind_step _ _ _ n s) by (apply int_ul_iff; simpl; auto).
    apply pbind_Err, stream_read_short; lia.
  - intros Hl Hv.
    rewrite (pbind_step _ _ _ (Z.of_nat (length bs)) (bs ++ s))
      by (apply int_ul_iff; simpl; split; [lia|reflexivity]).
    rewrite (pbind_step _ _ _ bs s) by apply stream_read_app.
    rewrite Hv. reflexivity.
Qed.

(** ** Arrays and the [recfmt] Switch *)

Lemma pbind_pret_iff {A B} (p : parser A) (f : A -> B) s x s' :
  (v <- p ;; pret (f v)) s = Ok (x, s') <-> exists v, p s = Ok (v, s') /\ x = f v.
Proof.
  unfold pbind, pret. destruct (p s) as [[v s1]|e].
  - split; [intros H; injection H as <- <-; eauto|intros (v' & H & ->); congruence].
  - split; [discriminate|intros (v' & H & _); discriminate].
Qed.

Lemma prepeat_iff {A B} (p : parser A) (P : B -> Prop) (f : B -> A) (enc : B -> list byte) :
  (forall s x s', p s = Ok (x, s') <-> exists y, P y /\ x = f y /\ s = enc y ++ s') ->
  forall n s xs s', prepeat n p s = Ok (xs, s') <->
    exists ys, length ys = n /\ Forall P ys /\ xs = map f ys /\ s = concat (map enc ys) ++ s'.
Proof.
  intros Hp. induction n as [|n IH]; intros s xs s'; cbn [prepeat].
  - unfold pret. split.
    + intros H. injection H as <- <-. exists []. repeat split; auto.
    + intros ([|y ys] & Hl & _ & -> & ->); [reflexivity|discriminate].
  - split.
    + intros H. inv_binds. injection H as <- <-.
      apply Hp in Hp0 as (y & Hy & -> & ->). apply IH in Hp1 as (ys & Hl & Hf & -> & ->).
      exists (y :: ys). simpl. rewrite <- app_assoc. repeat split; auto.
    + intros ([|y ys] & Hl & Hf & -> & ->); [discriminate|].
      injection Hl as Hl. inversion Hf as [|? ? Hy Hys]; subst. simpl.
      rewrite <- app_assoc.
      rewrite (pbind_step _ _ _ (f y) _) by (apply Hp; eauto).
      rewrite (pbind_step _ _ _ (map f ys) _) by (apply IH; eauto).
      reflexivity.
Qed.

Lemma Array_iff {A B} (p : parser A) (P : B -> Prop) (f : B -> A) (enc : B -> list byte) num :
  (forall s x s', p s = Ok (x, s') <-> exists y, P y /\ x = f y /\ s = enc y ++ s') ->
  0 <= num ->
  forall s xs s', Array_ num p s = Ok (xs, s') <->
    exists ys, Z.of_nat (length ys) = num /\ Forall P ys /\ xs = map f ys /\
      s = concat (map enc ys) ++ s'.
Proof.
  intros Hp Hn s xs s'. unfold Array_.
  replace (num <? 0) with false by (symmetry; apply Z.ltb_ge; lia).
  rewrite (prepeat_iff p P f enc Hp). split.
  - intros (ys & Hl & H). exists ys. split; [lia|exact H].
  - intros (ys & Hl & H). exists ys. split; [lia|exact H].
Qed.

Lemma PInt_ul_iff w s x s' :
  (v <- int_ul w ;; pret (PInt v)) s = Ok (x, s') <->
  exists y, 0 <= y < 2 ^ (8 * Z.of_nat w) /\ x = PInt y /\ s = le_bytes w y ++ s'.
Proof.
  rewrite pbind_pret_iff. split.
  - intros (v & Hv & ->). apply int_ul_iff in Hv as [Hr ->]. eauto.
  - intros (y & Hr & -> & ->). exists y. split; [apply int_ul_iff; auto|reflexivity].
Qed.

Lemma PInt_sl_iff w s x s' :
  (0 < w)%nat ->
  (v <- int_sl w ;; pret (PInt v)) s = Ok (x, s') <->
  exists y, - 2 ^ (8 * Z.of_nat w - 1) <= y < 2 ^ (8 * Z.of_nat w - 1) /\ x = PInt y /\
    s = le_bytes w y ++ s'.
Proof.
  intros Hw. rewrite pbind_pret_iff. split.
  - intros (v & Hv & ->). apply int_sl_iff in Hv as [Hr ->]; eauto.
  - intros (y & Hr & -> & ->). exists y. split; [apply int_sl_iff; auto|reflexivity].
Qed.

Lemma PFloat_iff w (dec : Z -> float) (p : parser float) s x s' :
  p = (v <- int_ul w ;; pret (dec v)) ->
  (v <- p ;; pret (PFloat v)) s = Ok (x, s') <->
  exists y, 0 <= y < 2 ^ (8 * Z.of_nat w) /\ x = PFloat (dec y) /\ s = le_bytes w y ++ s'.
Proof.
  intros ->. rewrite pbind_pret_iff. split.
  - intros (v & Hv & ->). apply pbind_pret_iff in Hv as (y & Hy & ->).
    apply int_ul_iff in Hy as [Hr ->]. eauto.
  - intros (y & Hr & -> & ->). exists (dec y). split; [|reflexivity].
    apply pbind_pret_iff. exists y. split; [apply int_ul_iff; auto|reflexivity].
Qed.

Lemma int_ul_elem_iff w s x s' :
  int_ul w s = Ok (x, s') <->
  exists y, 0 <= y < 2 ^ (8 * Z.of_nat w) /\ x = y /\ s = le_bytes w y ++ s'.
Proof.
  rewrite int_ul_iff. split; [intros [Hr ->]; eauto|intros (y & Hr & -> & ->); auto].
Qed.

Lemma recfmt_str_ints_iff (fmt : Z) (w : nat) (signed : bool) num s vals s' :
  In (fmt, w, signed) [(3, 1%nat, false); (4, 1%nat, false); (5, 2%nat, true);
                       (6, 2%nat, false); (7, 4%nat, true); (8, 4%nat, false)] ->
  0 <= num ->
  recfmt_str fmt num s = Ok (vals, s') <->
  exists ns, Z.of_nat (length ns) = num /\
    Forall (fun n => if signed then - 2 ^ (8 * Z.of_nat w - 1) <= n < 2 ^ (8 * Z.of_nat w - 1)
                     else 0 <= n < 2 ^ (8 * Z.of_nat w)) ns /\
    vals = map PInt ns /\ s = concat (map (le_bytes w) ns) ++ s'.
Proof.
  intros Hin Hn.
  destruct Hin as [E|[E|[E|[E|[E|[E|[]]]]]]]; injection E as <- <- <-; unfold recfmt_str;
    apply Array_iff; auto; intros s0 x s1;
    first [ apply (PInt_ul_iff 1) | apply (PInt_ul_iff 2) | apply (PInt_ul_iff 4)
          | apply (PInt_sl_iff 2); lia | apply (PInt_sl_iff 4); lia ].
Qed.

Lemma recfmt_str_floats_iff (fmt : Z) (w : nat) dec num s vals s' :
  In (fmt, w, dec) [(1, 4%nat, f32_of_bits); (2, 8%nat, f64_of_bits)] ->
  0 <= num ->
  recfmt_str fmt num s = Ok (vals, s') <->
  exists ns, Z.of_nat (length ns) = num /\ Forall (fun n => 0 <= n < 2 ^ (8 * Z.of_nat w)) ns /\
    vals = map (fun n => PFloat (dec n)) ns /\ s = concat (map (le_bytes w) ns) ++ s'.
Proof.
  intros Hin Hn.
  destruct Hin as [E|[E|[]]]; injection E as <- <- <-; unfold recfmt_str;
    apply Array_iff; auto; intros s0 x s1;
    first [ apply (PFloat_iff 4 f32_of_bits); reflexivity
          | apply (PFloat_iff 8 f64_of_bits); reflexivity ].
Qed.

Lemma recfmt_str_Err fmt num s :
  (~ (1 <= fmt <= 8) -> recfmt_str fmt num s = Err AttributeError) /\
  (1 <= fmt <= 8 -> num < 0 -> recfmt_str fmt num s = Err RangeError).
Proof.
  split.
  - intros Hf. unfold recfmt_str.
    destruct fmt as [|q|q]; [reflexivity| |reflexivity].
    do 4 (try destruct q as [q|q|]); try reflexivity; exfalso; lia.
  - intros Hf Hn. unfold recfmt_str, Array_.
    replace (num <? 0) with true by (symmetry; apply Z.ltb_lt; lia).
    assert (fmt = 1 \/ fmt = 2 \/ fmt = 3 \/ fmt = 4 \/ fmt = 5 \/ fmt = 6 \/ fmt = 7 \/ fmt = 8)
      as Hc by lia.
    destruct Hc as [->|[->|[->|[->|[->|[->|[->| ->]]]]]]]; reflexivity.
Qed.

Lemma cmd_str_iff s c s' :
  cmd_str s = Ok (c, s') <->
  (exists ids, c = {| cmd_code := 5; cnt := Some (Z.of_nat (length ids)); cmd_trkids := Some ids |} /\
     Z.of_nat (length ids) < 2 ^ 16 /\ Forall (fun i => 0 <= i < 2 ^ 16) ids /\
     s = le_bytes 1 5 ++ le_bytes 2 (Z.of_nat (length ids)) ++ concat (map (le_bytes 2) ids) ++ s') \/
  (exists b, 0 <= b < 2 ^ 8 /\ b <> 5 /\ c = {| cmd_code := b; cnt := None; cmd_trkids := None |} /\
     s = le_bytes 1 b ++ s').
Proof.
  unfold cmd_str, Byte_, WORD. split.
  - intros H. inv_bind H. apply int_ul_iff in Hp as [Hr ->].
    destruct (Z.eqb_spec v 5) as [->|Hne].
    + left. inv_binds. injection H as <- <-.
      apply int_ul_iff in Hp as [Hr2 ->].
      pose proof (Hp0) as Hlen. apply Array_length in Hlen.
      apply (Array_iff (int_ul 2) (fun i => 0 <= i < 2 ^ 16) id (le_bytes 2) _
               (int_ul_elem_iff 2)) in Hp0 as (ys & Hl & Hf & Hm & ->); [|lia].
      rewrite map_id in Hm. subst. exists ys. simpl in *. repeat split; auto; lia.
    + right. injection H as <- <-. exists v. simpl in Hr. auto.
  - intros [(ids & -> & Hl & Hf & ->)|(b & Hr & Hne & -> & ->)].
    + rewrite (pbind_step _ _ _ 5 _) by (apply int_ul_iff; simpl; split; [lia|reflexivity]).
      rewrite Z.eqb_refl.
      rewrite (pbind_step _ _ _ (Z.of_nat (length ids)) _)
        by (apply int_ul_iff; simpl; split; [lia|reflexivity]).
      rewrite (pbind_step _ _ _ ids s').
      * reflexivity.
      * apply (Array_iff (int_ul 2) (fun i => 0 <= i < 2 ^ 16) id (le_bytes 2) _
                 (int_ul_elem_iff 2)); [lia|]. exists ids. rewrite map_id. auto.
    + rewrite (pbind_step _ _ _ b _) by (apply int_ul_iff; simpl; auto).
      apply Z.eqb_neq in Hne. rewrite Hne. reflexivity.
Qed.

(** ** The registry of [save_format_hook] *)

Lemma body_str_rec ok reg s p reg' s' r :
  body_str ok reg s = Ok ((p, reg'), s') -> data p = DRec r ->
  exists info, reg !! rec_trkid r = Some info /\ rec_rec_type r = rec_type info /\
    rec_name r = name info /\ kind_ok (rec_type info) (values r).
Proof.
  unfold body_str. intros H Hd. inv_bind H. inv_bind H.
  apply OneOf_Ok in Hp as [Hin _].
  destruct Hin as [<-|[<-|[<-|[<-|[]]]]]; cbv beta iota in H; inv_bind H;
    injection H as <- <- _; simpl in Hd; try discriminate.
  injection Hd as ->.
  apply Padded_Ok in Hp as (pre & sur & Hs & Hl & Hq); [|eauto with suffix].
  unfold rec_str in Hq. inv_bind Hq. inv_bind Hq. inv_bind Hq.
  match type of Hq with context [reg !! ?k] =>
    destruct (reg !! k) as [info|] eqn:Hreg; [|discriminate] end.
  inv_bind Hq. injection Hq as <- _. simpl.
  exists info. split; [exact Hreg|]. split; [reflexivity|]. split; [reflexivity|].
  match goal with H : rec_values_str _ _ _ = Ok _ |- _ => exact (rec_values_kind _ _ _ _ _ H) end.
Qed.

Lemma body_loop_reg ok fuel reg s acc body :
  body_loop ok fuel reg s acc = Ok body ->
  exists rest, body = acc ++ rest /\
    forall pre p post r, rest = pre ++ p :: post -> data p = DRec r ->
      exists info, fold_left reg_step pre reg !! rec_trkid r = Some info /\
        rec_rec_type r = rec_type info /\ rec_name r = name info /\
        kind_ok (rec_type info) (values r).
Proof.
  revert reg s acc. induction fuel as [|fuel IH]; intros reg s acc H; cbn [body_loop] in H;
    [discriminate|].
  destruct (body_str ok reg s) as [[[p reg'] s']|e] eqn:E.
  - apply IH in H as (rest & -> & Hr). exists (p :: rest).
    split; [rewrite <- app_assoc; reflexivity|].
    pose proof (body_str_wf _ _ _ _ _ _ E) as [-> _].
    intros [|p0 pre] p1 post r Hs Hd; simpl in Hs; injection Hs as <- Hs.
    + exact (body_str_rec _ _ _ _ _ _ _ E Hd).
    + simpl. exact (Hr pre p1 post r Hs Hd).
  - destruct e; try discriminate. injection H as <-. exists []. split; [symmetry; apply app_nil_r|].
    intros [|? ?] ? ? ? Hs; discriminate.
Qed.

Lemma fold_reg_step_lookup pre k info :
  fold_left reg_step pre ∅ !! k = Some info ->
  exists pre1 p pre2, pre = pre1 ++ p :: pre2 /\ data p = DTrk info /\ trkid info = k /\
    forall p' t', In p' pre2 -> data p' = DTrk t' -> trkid t' <> k.
Proof.
  induction pre as [|p pre IH] using rev_ind; simpl.
  - rewrite lookup_empty. discriminate.
  - rewrite fold_left_app. simpl. unfold reg_step at 1.
    destruct (data p) as [i|r|c|d|] eqn:Ed;
      try (intros H; destruct (IH H) as (pre1 & p1 & pre2 & -> & Hd & Hk & Hn);
           exists pre1, p1, (pre2 ++ [p]); rewrite <- app_assoc; split; [reflexivity|];
           split; [exact Hd|]; split; [exact Hk|];
           intros p' t' Hin Ht; apply in_app_or in Hin as [Hin|[<-|[]]];
           [exact (Hn p' t' Hin Ht)|congruence]).
    destruct (decide (trkid i = k)) as [<-|Hne].
    + rewrite lookup_insert_eq. intros H. injection H as <-.
      exists pre, p, []. split; [reflexivity|]. split; [exact Ed|]. split; [reflexivity|].
      intros p' t' [].
    + rewrite lookup_insert_ne by exact Hne. intros H.
      destruct (IH H) as (pre1 & p1 & pre2 & -> & Hd & Hk & Hn).
      exists pre1, p1, (pre2 ++ [p]). rewrite <- app_assoc. split; [reflexivity|].
      split; [exact Hd|]. split; [exact Hk|].
      intros p' t' Hin Ht. apply in_app_or in Hin as [Hin|[<-|[]]];
        [exact (Hn p' t' Hin Ht)|congruence].
Qed.

Lemma Vital_init_rec_latest ok path s v pre p post r :
  Vital_init ok path s = Ok v ->
  file_body (file v) = pre ++ p :: post -> data p = DRec r ->
  exists pre1 q pre2 info, pre = pre1 ++ q :: pre2 /\ data q = DTrk info /\
    trkid info = rec_trkid r /\
    (forall q' t', In q' pre2 -> data q' = DTrk t' -> trkid t' <> rec_trkid r) /\
    rec_rec_type r = rec_type info /\ rec_name r = name info /\
    kind_ok (rec_type info) (values r).
Proof.
  unfold Vital_init, load_vital. intros H Hb Hd.
  destruct (header_str s) as [[h s1]|e]; [|discriminate].
  destruct (parse_packets ok s1) as [body|e] eqn:Hp; [|discriminate].
  destruct (_ =? _); [|discriminate]. injection H as <-. simpl in Hb.
  unfold parse_packets in Hp. apply body_loop_reg in Hp as (rest & -> & Hr).
  destruct (Hr pre p post r Hb Hd) as (info & Hl & Ht & Hn & Hk).
  destruct (fold_reg_step_lookup _ _ _ Hl) as (pre1 & q & pre2 & -> & Hq & Hid & Hno).
  exists pre1, q, pre2, info. auto 10.
Qed.

(** ** What [Track] changes in the file *)

Lemma pkt_frame_refl t p : pkt_frame t p p.
Proof. unfold pkt_frame. split; [reflexivity|]. split; [reflexivity|]. destruct (data p); eauto. Qed.

Lemma convert_body_frame info t ps ps' e :
  convert_body info t ps = (ps', e) -> Forall2 (pkt_frame t) ps ps'.
Proof.
  revert ps' e. induction ps as [|p ps IH]; intros ps' e H; simpl in H.
  - injection H as <-. constructor.
  - destruct (data p) as [d|r|c|t'|] eqn:Ed;
      [| destruct (rec_trkid r =? t) eqn:Et;
         [destruct (convert_rec info r) as [r'|e'] eqn:Ec|] | | |];
      try (destruct (convert_body info t ps) as [ps'' e''] eqn:E; simpl in H;
           injection H as <- <-; constructor; [|exact (IH _ _ eq_refl)]).
    + apply pkt_frame_refl.
    + unfold pkt_frame. simpl. rewrite Ed. split; [reflexivity|]. split; [reflexivity|].
      exists r'. split; [reflexivity|]. split; [exact (convert_rec_trkid _ _ _ Ec)|].
      apply Z.eqb_eq in Et. intros Hne. contradiction.
    + injection H as <- _. constructor; [apply pkt_frame_refl|].
      clear. induction ps; constructor; [apply pkt_frame_refl|assumption].
    + apply pkt_frame_refl.
    + apply pkt_frame_refl.
    + apply pkt_frame_refl.
    + apply pkt_frame_refl.
Qed.

Lemma omap_cons_eq {A B} (f : A -> option B) x l :
  omap f (x :: l) = match f x with Some y => y :: omap f l | None => omap f l end.
Proof. reflexivity. Qed.

Lemma frame_track_info t ps ps' :
  Forall2 (pkt_frame t) ps ps' ->
  omap (fun p => match data p with DTrk i => Some i | _ => None end) ps' =
  omap (fun p => match data p with DTrk i => Some i | _ => None end) ps.
Proof.
  induction 1 as [|p p' ps ps' (_ & _ & Hd) _ IH]; [reflexivity|].
  rewrite !omap_cons_eq. cbv beta.
  destruct (data p) as [d|r|c|i|] eqn:Ed;
    [| destruct Hd as (r' & Hd & _) | | |]; rewrite Hd, IH; reflexivity.
Qed.

Lemma frame_recs_trkids t ps ps' :
  Forall2 (pkt_frame t) ps ps' ->
  map rec_trkid (omap (fun p => match data p with DRec r => Some r | _ => None end) ps') =
  map rec_trkid (omap (fun p => match data p with DRec r => Some r | _ => None end) ps).
Proof.
  induction 1 as [|p p' ps ps' (_ & _ & Hd) _ IH]; [reflexivity|].
  rewrite !omap_cons_eq. cbv beta.
  destruct (data p) as [d|r|c|i|] eqn:Ed;
    [| destruct Hd as (r' & Hd & Hid & _) | | |]; rewrite Hd; try exact IH.
  cbn [map]. rewrite Hid, IH. reflexivity.
Qed.

Lemma frame_recs_other t t' ps ps' :
  t' <> t -> Forall2 (pkt_frame t) ps ps' ->
  List.filter (fun r => rec_trkid r =? t')
    (omap (fun p => match data p with DRec r => Some r | _ => None end) ps') =
  List.filter (fun r => rec_trkid r =? t')
    (omap (fun p => match data p with DRec r => Some r | _ => None end) ps).
Proof.
  intros Hne. induction 1 as [|p p' ps ps' (_ & _ & Hd) _ IH]; [reflexivity|].
  rewrite !omap_cons_eq. cbv beta.
  destruct (data p) as [d|r|c|i|] eqn:Ed;
    [| destruct Hd as (r' & Hd & Hid & Hsame) | | |]; rewrite Hd; try exact IH.
  cbn [List.filter]. rewrite Hid. destruct (Z.eqb_spec (rec_trkid r) t') as [E|E].
  - rewrite Hsame by congruence. rewrite IH. reflexivity.
  - exact IH.
Qed.

Lemma frame_types t ps ps' :
  Forall2 (pkt_frame t) ps ps' ->
  map (fun p => (type p, datalen p)) ps' = map (fun p => (type p, datalen p)) ps.
Proof.
  induction 1 as [|p p' ps ps' (Ht & Hl & _) _ IH]; [reflexivity|]. simpl.
  rewrite Ht, Hl, IH. reflexivity.
Qed.

Lemma Track_init_body v t res v' :
  Track_init v t = (res, v') ->
  v' = v \/ exists info ps' e, convert_body info t (file_body (file v)) = (ps', e) /\
                               v' = with_body v ps'.
Proof.
  unfold Track_init. intros H.
  destruct (List.filter (fun i => trkid i =? t) (track_info v)) as [|info [|i l]];
    try (injection H as _ <-; left; reflexivity).
  destruct (convert_body info t (file_body (file v))) as [ps' e] eqn:Ec.
  right. exists info, ps', e. split; [exact Ec|].
  destruct e; injection H as _ <-; reflexivity.
Qed.

Lemma Track_init_frame_body v t res v' :
  Track_init v t = (res, v') ->
  vital_path v' = vital_path v /\ file_header (file v') = file_header (file v) /\
  summed_datalen (file v') = summed_datalen (file v) /\
  Forall2 (pkt_frame t) (file_body (file v)) (file_body (file v')).
Proof.
  intros H. destruct (Track_init_body _ _ _ _ H) as [->|(info & ps' & e & Ec & ->)].
  - repeat split. clear. induction (file_body (file v)); constructor; auto using pkt_frame_refl.
  - simpl. repeat split. exact (convert_body_frame _ _ _ _ _ Ec).
Qed.

Lemma convert_rec_idem info r r' :
  convert_rec info r = Ok r' -> convert_rec info r' = Ok r'.
Proof.
  destruct r as [il dt0 tid rt nm vs vr]. unfold convert_rec. simpl.
  intros H. destruct (rec_type info) as [|[q|q|]|q] eqn:Et; try discriminate;
    repeat (destruct q as [q|q|]; try discriminate);
    destruct vs as [n f vals|f [|x l]|u sv o|bs]; try discriminate;
    injection H as <-; reflexivity.
Qed.

Lemma convert_body_idem info t ps ps' :
  convert_body info t ps = (ps', None) -> convert_body info t ps' = (ps', None).
Proof.
  intros H. apply convert_body_None in H.
  induction H as [|p p' ps ps' Hp HF IH]; [reflexivity|]. simpl.
  destruct (data p) as [d|r|c|i|] eqn:Ed; try (subst p'; rewrite Ed, IH; reflexivity).
  destruct (rec_trkid r =? t) eqn:Et.
  - destruct Hp as (r' & Hd & Hc). rewrite Hd, (convert_rec_trkid _ _ _ Hc), Et.
    rewrite (convert_rec_idem _ _ _ Hc), IH. destruct p'. simpl in Hd. subst. reflexivity.
  - subst p'. rewrite Ed, Et, IH. reflexivity.
Qed.

Lemma Track_init_track_info v t res v' :
  Track_init v t = (res, v') -> track_info v' = track_info v.
Proof.
  intros H. apply Track_init_frame_body in H as (_ & _ & _ & HF).
  unfold track_info. exact (frame_track_info _ _ _ HF).
Qed.

Lemma Track_init_again v t tr v' :
  Track_init v t = (Ok tr, v') -> Track_init v' t = (Ok tr, v').
Proof.
  intros H. pose proof (Track_init_track_info _ _ _ _ H) as Hti. revert H.
  unfold Track_init. rewrite Hti.
  destruct (List.filter (fun i => trkid i =? t) (track_info v)) as [|info [|i l]];
    try discriminate.
  destruct (convert_body info t (file_body (file v))) as [ps' [e|]] eqn:Ec; [discriminate|].
  intros H. injection H as <- <-. simpl.
  rewrite (convert_body_idem _ _ _ _ Ec). reflexivity.
Qed.

(** ** [get_track] and [save_tracks_to_file] *)

Lemma Track_init_Ok v t tr v' :
  Track_init v t = (Ok tr, v') ->
  List.filter (fun i => trkid i =? t) (track_info v) = [tinfo tr] /\ tpath tr = vital_path v.
Proof.
  unfold Track_init.
  destruct (List.filter (fun i => trkid i =? t) (track_info v)) as [|info [|i l]] eqn:Ef;
    try discriminate.
  destruct (convert_body info t (file_body (file v))) as [ps' [e|]]; [discriminate|].
  intros H. injection H as <- _. auto.
Qed.

Lemma filter_single_In {A} (f : A -> bool) l x y :
  List.filter f l = [x] -> In y l -> f y = true -> y = x.
Proof.
  intros Hf Hy Hfy. assert (Hin : In y (List.filter f l)) by (apply filter_In; auto).
  rewrite Hf in Hin. destruct Hin as [<-|[]]. reflexivity.
Qed.

Lemma get_track_frame v t n res v' :
  get_track v t n = (res, v') -> vital_path v' = vital_path v /\ track_info v' = track_info v.
Proof.
  intros H. unfold get_track in H.
  assert (HT : forall t0, Track_init v t0 = (res, v') ->
             vital_path v' = vital_path v /\ track_info v' = track_info v)
    by (intros t0 Ht; split;
        [apply Track_init_frame_body in Ht; tauto|exact (Track_init_track_info _ _ _ _ Ht)]).
  repeat case_match; subst; first [injection H as _ <-; auto | exact (HT _ H)].
Qed.

Lemma get_track_Ok v t n tr v' :
  get_track v t n = (Ok tr, v') ->
  tpath tr = vital_path v /\
  List.filter (fun i => trkid i =? trkid (tinfo tr)) (track_info v) = [tinfo tr] /\
  (forall t0, t = Some t0 -> trkid (tinfo tr) = t0) /\
  (forall n0, n = Some n0 -> name (tinfo tr) = n0).
Proof.
  assert (Hk : forall t0, Track_init v t0 = (Ok tr, v') ->
            trkid (tinfo tr) = t0 /\ tpath tr = vital_path v /\
            List.filter (fun i => trkid i =? trkid (tinfo tr)) (track_info v) = [tinfo tr]).
  { intros t0 H. apply Track_init_Ok in H as [Hf Hp].
    assert (Hin : In (tinfo tr) [tinfo tr]) by (left; reflexivity).
    rewrite <- Hf in Hin. apply filter_In in Hin as [_ Ht]. apply Z.eqb_eq in Ht.
    rewrite Ht. auto. }
  assert (Hn : forall n0 t', trkids_named v n0 = [t'] -> Track_init v t' = (Ok tr, v') ->
            name (tinfo tr) = n0).
  { intros n0 t' Hnm H. apply Track_init_Ok in H as [Hf _].
    unfold trkids_named in Hnm.
    destruct (List.filter (fun i => bool_decide (name i = n0)) (track_info v)) as [|j [|? ?]]
      eqn:Ej; try discriminate.
    injection Hnm as Hj.
    assert (Hjn : In j (List.filter (fun i => bool_decide (name i = n0)) (track_info v)))
      by (rewrite Ej; left; reflexivity).
    apply filter_In in Hjn as [Hjin Hjn]. apply bool_decide_eq_true in Hjn.
    rewrite <- (filter_single_In _ _ _ _ Hf Hjin) by (apply Z.eqb_eq; exact Hj).
    exact Hjn. }
  unfold get_track. destruct t as [t0|], n as [n0|]; try discriminate.
  - destruct (trkids_named v n0) as [|t' [|? ?]] eqn:Enm; try discriminate.
    destruct (Z.eqb_spec t0 t') as [<-|]; [|discriminate]. intros H.
    destruct (Hk _ H) as (Ht & Hp & Hf). repeat split; auto.
    + intros t1 E. injection E as <-. exact Ht.
    + intros n1 E. injection E as <-. exact (Hn _ _ Enm H).
  - intros H. destruct (Hk _ H) as (Ht & Hp & Hf). repeat split; auto.
    + intros t1 E. injection E as <-. exact Ht.
    + intros n1 E. discriminate.
  - destruct (trkids_named v n0) as [|t' [|? ?]] eqn:Enm; try discriminate. intros H.
    destruct (Hk _ H) as (Ht & Hp & Hf). repeat split; auto.
    + intros t1 E. discriminate.
    + intros n1 E. injection E as <-. exact (Hn _ _ Enm H).
Qed.

Lemma get_tracks_Ok v qs res v' :
  get_tracks v qs = (res, v') ->
  vital_path v' = vital_path v /\ track_info v' = track_info v /\
  forall trs, res = Ok trs ->
    Forall2 (fun q tr =>
      tpath tr = vital_path v /\
      List.filter (fun i => trkid i =? trkid (tinfo tr)) (track_info v) = [tinfo tr] /\
      (forall t0, fst q = Some t0 -> trkid (tinfo tr) = t0) /\
      (forall n0, snd q = Some n0 -> name (tinfo tr) = n0)) qs trs.
Proof.
  revert v res v'. induction qs as [|[t n] qs IH]; intros v res v' H; simpl in H.
  - injection H as <- <-. repeat split; auto. intros trs E. injection E as <-. constructor.
  - destruct (get_track v t n) as [[tr|e] v1] eqn:Eg.
    + destruct (get_track_frame _ _ _ _ _ Eg) as [Hp1 Ht1].
      destruct (get_tracks v1 qs) as [[trs|e] v2] eqn:Er;
        injection H as <- <-; destruct (IH _ _ _ Er) as (Hp2 & Ht2 & HF);
        rewrite Hp2, Ht2, Hp1, Ht1; repeat split; auto; intros trs' E; try discriminate.
      injection E as <-. constructor.
      * exact (get_track_Ok _ _ _ _ _ Eg).
      * specialize (HF trs eq_refl). rewrite Hp1, Ht1 in HF. exact HF.
    + injection H as <- <-. destruct (get_track_frame _ _ _ _ _ Eg) as [Hp1 Ht1].
      repeat split; auto. intros trs E. discriminate.
Qed.

Lemma save_to_file_name to_pandas_rows tr path w :
  save_to_file to_pandas_rows tr path None = Ok w ->
  fst w = (default (bytes "converted") path,
           path_stem (tpath tr) ++ bytes "_" ++ name (tinfo tr) ++ bytes ".csv").
Proof.
  unfold save_to_file. destruct (to_pandas_rows tr); [|discriminate].
  intros H. injection H as <-. reflexivity.
Qed.

Lemma save_each_prefix to_pandas_rows trs path ws e :
  save_each to_pandas_rows trs path = (ws, e) ->
  exists rest, map fst ws ++ rest =
    map (fun tr => (default (bytes "converted") path,
                    path_stem (tpath tr) ++ bytes "_" ++ name (tinfo tr) ++ bytes ".csv")) trs /\
    (e = None -> rest = []).
Proof.
  revert ws e. induction trs as [|tr trs IH]; intros ws e H; simpl in H.
  - injection H as <- <-. exists []. split; [reflexivity|auto].
  - destruct (save_to_file to_pandas_rows tr path None) as [w|e'] eqn:Es.
    + destruct (save_each to_pandas_rows trs path) as [ws' e''] eqn:E.
      injection H as <- <-. destruct (IH _ _ eq_refl) as (rest & Hr & He).
      exists rest. simpl. rewrite Hr, (save_to_file_name _ _ _ _ Es). split; [reflexivity|exact He].
    + injection H as <- <-. eexists. split; [reflexivity|discriminate].
Qed.

Lemma save_built_prefix to_pandas_rows v qs path ws e v' :
  save_built to_pandas_rows (get_tracks v qs) path = ((ws, e), v') ->
  (exists trs rest,
    Forall2 (fun q tr =>
      tpath tr = vital_path v /\
      List.filter (fun i => trkid i =? trkid (tinfo tr)) (track_info v) = [tinfo tr] /\
      (forall t0, fst q = Some t0 -> trkid (tinfo tr) = t0) /\
      (forall n0, snd q = Some n0 -> name (tinfo tr) = n0)) qs trs /\
    (map fst ws ++ rest =
      map (fun tr => (default (bytes "converted") path,
                      path_stem (tpath tr) ++ bytes "_" ++ name (tinfo tr) ++ bytes ".csv")) trs) /\
    (e = None -> rest = [])) \/
  (ws = [] /\ exists e', e = Some (PyErr e')).
Proof.
  unfold save_built. destruct (get_tracks v qs) as [[trs|e'] v1] eqn:Eg.
  - destruct (save_each to_pandas_rows trs path) as [ws' e''] eqn:Es.
    intros H. injection H as <- <- _. left.
    destruct (get_tracks_Ok _ _ _ _ Eg) as (_ & _ & HF).
    destruct (save_each_prefix _ _ _ _ _ Es) as (rest & Hr & He).
    exists trs, rest. split; [exact (HF trs eq_refl)|]. split; [exact Hr|].
    intros E. apply He. destruct e''; [discriminate|reflexivity].
  - intros H. injection H as <- <- _. right. eauto.
Qed.

Lemma Forall2_map_eq {A B C} (f : A -> C) (g : B -> C) (P : A -> B -> Prop) l1 l2 :
  (forall a b, In a l1 -> P a b -> f a = g b) -> Forall2 P l1 l2 -> map f l1 = map g l2.
Proof.
  intros H HF. induction HF as [|a b l1 l2 Hab _ IH]; [reflexivity|]. simpl.
  rewrite (H a b (or_introl eq_refl) Hab), IH; [reflexivity|].
  intros a' b' Ha'. apply H. right. exact Ha'.
Qed.

Lemma Forall2_map_l_iff {A A' B} (g : A -> A') (P : A' -> B -> Prop) l1 l2 :
  Forall2 P (map g l1) l2 -> Forall2 (fun a b => P (g a) b) l1 l2.
Proof.
  revert l2. induction l1 as [|a l1 IH]; intros l2 H; simpl in H; inversion H; subst;
    constructor; auto.
Qed.

Lemma get_track_again_gen v t n tr v' :
  get_track v t n = (Ok tr, v') -> get_track v' t n = (Ok tr, v').
Proof.
  intros H. destruct (get_track_frame _ _ _ _ _ H) as [_ Hti].
  assert (Hnm : forall n0, trkids_named v' n0 = trkids_named v n0)
    by (intros n0; unfold trkids_named; rewrite Hti; reflexivity).
  revert H. unfold get_track. destruct t as [t0|], n as [n0|]; rewrite ?Hnm;
    repeat case_match; subst; try discriminate; apply Track_init_again.
Qed.

(** ** Packet types and the bytes left by the packet loop *)

(** [body_str] gives a packet [DTrk] data exactly when its type byte is 0. *)
Lemma body_str_type_data ok reg s p reg' s' :
  body_str ok reg s = Ok ((p, reg'), s') ->
  (type p = 0 <-> exists t, data p = DTrk t).
Proof.
  unfold body_str. intros H. inv_bind H. inv_bind H.
  apply OneOf_Ok in Hp as [Hin _].
  destruct Hin as [<-|[<-|[<-|[<-|[]]]]]; cbv beta iota in H; inv_bind H;
    injection H as <- _ _; simpl; split;
    first [ intros _; eexists; reflexivity
          | intros Hc; discriminate Hc
          | intros [? Hc]; discriminate Hc ].
Qed.

Lemma body_loop_types ok fuel reg s acc body :
  body_loop ok fuel reg s acc = Ok body ->
  exists ps, body = acc ++ ps /\
    Forall (fun p => type p = 0 <-> exists t, data p = DTrk t) ps.
Proof.
  revert reg s acc. induction fuel as [|fuel IH]; intros reg s acc H; cbn [body_loop] in H;
    [discriminate|].
  destruct (body_str ok reg s) as [[[p reg'] s']|e] eqn:E.
  - apply IH in H as (ps & -> & Hps). exists (p :: ps).
    split; [rewrite <- app_assoc; reflexivity|].
    constructor; [exact (body_str_type_data _ _ _ _ _ _ E)|exact Hps].
  - destruct e; try discriminate. injection H as <-. exists [].
    split; [symmetry; apply app_nil_r|constructor].
Qed.

Lemma load_vital_types ok s f :
  load_vital ok s = Ok f ->
  Forall (fun p => type p = 0 <-> exists t, data p = DTrk t) (file_body f).
Proof.
  unfold load_vital, parse_packets. intros H.
  destruct (header_str s) as [[h s1]|e]; [|discriminate].
  destruct (body_loop ok _ ∅ s1 []) as [body|e] eqn:Hb; [|discriminate].
  destruct (_ =? _); [|discriminate]. injection H as <-. simpl.
  apply body_loop_types in Hb as (ps & -> & Hps). exact Hps.
Qed.

(** The containers of the type-0 packets, in order, are the [DTrk] data. *)
Lemma filter_type0_track_info (ps : list packet) :
  Forall (fun p => type p = 0 <-> exists t, data p = DTrk t) ps ->
  Forall2 (fun p t => data p = DTrk t) (List.filter (fun p => type p =? 0) ps)
    (omap (fun p => match data p with DTrk t => Some t | _ => None end) ps).
Proof.
  induction ps as [|p ps IH]; intros Hf; [constructor|].
  inversion Hf as [|? ? Hp Hps]; subst. rewrite omap_cons_eq. simpl.
  destruct (type p =? 0) eqn:Ety.
  - apply Z.eqb_eq, Hp in Ety as [t Ht]. rewrite Ht. constructor; [exact Ht|exact (IH Hps)].
  - apply Z.eqb_neq in Ety. destruct (data p) as [t|r|c|d|] eqn:Ed;
      try exact (IH Hps).
    exfalso. apply Ety, Hp. eexists; reflexivity.
Qed.

Lemma Vital_init_track_info ok path s v :
  Vital_init ok path s = Ok v ->
  Forall2 (fun p t => data p = DTrk t)
    (List.filter (fun p => type p =? 0) (file_body (file v))) (track_info v).
Proof.
  unfold Vital_init. destruct (load_vital ok s) as [f|e] eqn:Hl; [|discriminate].
  intros H. injection H as <-. unfold track_info. simpl.
  apply filter_type0_track_info, (load_vital_types ok s), Hl.
Qed.

(** The loop consumes [Σ (datalen + 5)] bytes and leaves a tail on which
    the next packet parse raised [StreamError]. *)
Lemma body_loop_rest ok fuel reg s acc body :
  body_loop ok fuel reg s acc = Ok body ->
  exists ps rest, body = acc ++ ps /\ suffix rest s /\
    Z.of_nat (length s) = packets_size ps + Z.of_nat (length rest) /\
    body_str ok (fold_left reg_step ps reg) rest = Err StreamError.
Proof.
  revert reg s acc. induction fuel as [|fuel IH]; intros reg s acc H; cbn [body_loop] in H;
    [discriminate|].
  destruct (body_str ok reg s) as [[[p reg'] s']|e] eqn:E.
  - apply IH in H as (ps & rest & -> & [k Hk] & Hlen & Hrest).
    pose proof (body_str_wf _ _ _ _ _ _ E) as [-> _].
    destruct (body_str_suffix ok reg s _ _ E) as [pre Hpre].
    apply body_str_length in E as [_ Hl].
    exists (p :: ps), rest. split; [rewrite <- app_assoc; reflexivity|].
    split; [exists (pre ++ k); rewrite Hpre, Hk, app_assoc; reflexivity|].
    split; [unfold packets_size in *; simpl; lia|exact Hrest].
  - destruct e; try discriminate. injection H as <-. exists [], s.
    split; [symmetry; apply app_nil_r|]. split; [exists []; reflexivity|].
    split; [unfold packets_size; simpl; lia|exact E].
Qed.

Lemma header_str_length s h s' :
  header_str s = Ok (h, s') -> Z.of_nat (length s) = 20 + Z.of_nat (length s').
Proof.
  intros H. apply header_str_iff in H as (_ & _ & _ & _ & _ & _ & ->).
  rewrite !length_app, !le_bytes_length. simpl. lia.
Qed.

Lemma load_vital_rest ok s0 h s1 body :
  header_str s0 = Ok (h, s1) -> parse_packets ok s1 = Ok body ->
  exists rest, suffix rest s1 /\
    body_str ok (fold_left reg_step body ∅) rest = Err StreamError /\
    Z.of_nat (length s0) = 20 + packets_size body + Z.of_nat (length rest) /\
    (load_vital ok s0 = Err AssertionError <-> headerlen h <> 10 + Z.of_nat (length rest)) /\
    (load_vital ok s0 =
       Ok {| file_header := h; file_body := body; summed_datalen := summed h body |}
     <-> headerlen h = 10 + Z.of_nat (length rest)).
Proof.
  intros Hh Hb. pose proof (header_str_length _ _ _ Hh) as Hl0.
  pose proof Hb as Hb'. unfold parse_packets in Hb'.
  apply body_loop_rest in Hb' as (ps & rest & Heq & Hsuf & Hl1 & Hrest).
  simpl in Heq. subst ps.
  exists rest. split; [exact Hsuf|]. split; [exact Hrest|]. split; [lia|].
  unfold load_vital. rewrite Hh, Hb.
  assert (Hs : summed h body = packets_size body + headerlen h + 10) by reflexivity.
  destruct (Z.of_nat (length s0) =? summed h body) eqn:E.
  - apply Z.eqb_eq in E. split; [split; [discriminate|lia]|split; [lia|reflexivity]].
  - apply Z.eqb_neq in E. split; [split; [lia|reflexivity]|split; [discriminate|lia]].
Qed.

(** ** C3: duplicated EVENT tracks *)

(** C3 (amended): on a parsed file the track-info list is, in file order and
    one entry per packet, the TRKINFO containers of the type-0 packets of
    the body (duplicates named EVENT included, nothing is dropped); a lookup
    by a name that two or more entries bear fails with ValueError; a lookup
    by trkid [t] that succeeds uses the one entry with trkid [t] and joins
    exactly the REC packets with trkid [t], each converted. *)
Theorem track_info_no_dedup (v : vital) :
  (forall ok path s, Vital_init ok path s = Ok v ->
     Forall2 (fun p t => data p = DTrk t)
       (List.filter (fun p => type p =? 0) (file_body (file v))) (track_info v)) /\
  (forall n, (2 <= length (trkids_named v n))%nat ->
     forall tid, get_track v tid (Some n) = (Err ValueError, v)) /\
  (forall t tr v', get_track v (Some t) None = (Ok tr, v') ->
     List.filter (fun i => trkid i =? t) (track_info v) = [tinfo tr] /\
     Forall2 (fun r r' => convert_rec (tinfo tr) r = Ok r') (recs_of v t) (trecs tr)).
Proof.
  split; [|split].
  - exact (fun ok path s => Vital_init_track_info ok path s v).
  - intros n Hn tid. unfold get_track.
    destruct (trkids_named v n) as [|a [|b l]]; simpl in Hn; try lia.
    destruct tid; reflexivity.
  - intros t tr v' H. unfold get_track, Track_init in H.
    destruct (List.filter (fun i => trkid i =? t) (track_info v)) as [|info [|i l]];
      try congruence.
    destruct (convert_body info t (file_body (file v))) as [ps' [e|]] eqn:Ec; [congruence|].
    injection H as <- <-. split; [reflexivity|]. simpl. apply recs_of_convert. exact Ec.
Qed.

Lemma track_info_no_dedup_witness :
  exists v tr v',
    Vital_init accept_all (bytes "case1.vital") ex_events = Ok v /\
    Forall2 (fun p t => data p = DTrk t)
      (List.filter (fun p => type p =? 0) (file_body (file v))) (track_info v) /\
    (2 <= length (trkids_named v (bytes "EVENT")))%nat /\
    get_track v None (Some (bytes "EVENT")) = (Err ValueError, v) /\
    get_track v (Some 4) None = (Ok tr, v') /\
    List.filter (fun i => trkid i =? 4) (track_info v) = [tinfo tr] /\
    Forall2 (fun r r' => convert_rec (tinfo tr) r = Ok r') (recs_of v 4) (trecs tr).
Proof.
  assert (H1 : Vital_init accept_all (bytes "case1.vital") ex_events = Ok _)
    by (vm_compute; reflexivity).
  match type of H1 with _ = Ok ?v =>
    assert (H2 : (2 <= length (trkids_named v (bytes "EVENT")))%nat) by (vm_compute; lia);
    assert (H3 : get_track v (Some 4) None = (Ok _, _)) by (vm_compute; reflexivity);
    match type of H3 with _ = (Ok ?tr, ?v') =>
      exists v, tr, v';
      exact (conj H1 (conj (proj1 (track_info_no_dedup v) _ _ _ H1)
               (conj H2 (conj (proj1 (proj2 (track_info_no_dedup v)) _ H2 None)
               (conj H3 (proj2 (proj2 (track_info_no_dedup v)) _ _ _ H3))))))
    end
  end.
Defined.

(** ** C4: how the packet loop ends *)

(** C4 (amended): a StreamError raised anywhere while parsing a packet, at
    its type byte or later inside it, ends the loop normally with the packets
    parsed so far; any other exception of the packet parse propagates.  Once
    the loop has ended, the bytes [rest] it left (empty at a clean end of
    file, the partial packet otherwise) are dropped, and the only check that
    can still reject the file is the integrity check: it fails exactly when
    [headerlen + 10 <> 20 + |rest|], i.e. when the summed sizes differ from
    the file size. *)
Theorem body_loop_exit ok fuel reg s acc :
  (body_str ok reg s = Err StreamError -> body_loop ok (S fuel) reg s acc = Ok acc) /\
  (forall e, body_str ok reg s = Err e -> e <> StreamError ->
     body_loop ok (S fuel) reg s acc = Err e) /\
  (forall s0 h s1 body, header_str s0 = Ok (h, s1) -> parse_packets ok s1 = Ok body ->
     exists rest, suffix rest s1 /\
       body_str ok (fold_left reg_step body ∅) rest = Err StreamError /\
       Z.of_nat (length s0) = 20 + packets_size body + Z.of_nat (length rest) /\
       (load_vital ok s0 = Err AssertionError <-> headerlen h <> 10 + Z.of_nat (length rest)) /\
       (load_vital ok s0 =
          Ok {| file_header := h; file_body := body; summed_datalen := summed h body |}
        <-> headerlen h = 10 + Z.of_nat (length rest))).
Proof.
  split; [|split].
  - intros H. cbn [body_loop]. rewrite H. reflexivity.
  - intros e H Hne. cbn [body_loop]. rewrite H. destruct e; congruence.
  - exact (load_vital_rest ok).
Qed.

Lemma body_loop_exit_witness :
  body_str accept_all ∅ [x00] = Err StreamError /\
  body_loop accept_all 1 ∅ [x00] [] = Ok [] /\
  body_str accept_all ∅ [x63] = Err ValidationError /\
  body_loop accept_all 1 ∅ [x63] [] = Err ValidationError /\
  (exists h, header_str ex_truncated = Ok (h, [x00]) /\
     parse_packets accept_all [x00] = Ok [] /\
     exists rest, suffix rest [x00] /\
       body_str accept_all (fold_left reg_step [] ∅) rest = Err StreamError /\
       Z.of_nat (length ex_truncated) = 20 + packets_size [] + Z.of_nat (length rest) /\
       (load_vital accept_all ex_truncated = Err AssertionError <->
          headerlen h <> 10 + Z.of_nat (length rest)) /\
       (load_vital accept_all ex_truncated =
          Ok {| file_header := h; file_body := []; summed_datalen := summed h [] |}
        <-> headerlen h = 10 + Z.of_nat (length rest))).
Proof.
  assert (H1 : body_str accept_all ∅ [x00] = Err StreamError) by (vm_compute; reflexivity).
  assert (H2 : body_str accept_all ∅ [x63] = Err ValidationError) by (vm_compute; reflexivity).
  assert (H3 : header_str ex_truncated = Ok (_, [x00])) by (vm_compute; reflexivity).
  assert (H4 : parse_packets accept_all [x00] = Ok []) by (vm_compute; reflexivity).
  split; [exact H1|]. split; [exact (proj1 (body_loop_exit accept_all 0 ∅ [x00] []) H1)|].
  split; [exact H2|].
  split; [exact (proj1 (proj2 (body_loop_exit accept_all 0 ∅ [x63] [])) _ H2
                   ltac:(discriminate))|].
  eexists. split; [exact H3|]. split; [exact H4|].
  exact (proj2 (proj2 (body_loop_exit accept_all 0 ∅ [x00] [])) _ _ _ _ H3 H4).
Defined.

(** * Further properties: statements *)

(** Fixed-width unsigned fields ([Byte], [WORD], [DWORD], i.e. Int8ul,
    Int16ul, Int32ul): reading [w] bytes succeeds with [v] exactly when
    [0 <= v < 2^(8w)] and the stream starts with the [w] little-endian
    bytes of [v]; the rest of the stream is what follows them. *)
Theorem int_ul_layout w s v s' :
  int_ul w s = Ok (v, s') <-> 0 <= v < 2 ^ (8 * Z.of_nat w) /\ s = le_bytes w v ++ s'.
Proof. apply int_ul_iff. Qed.

(** Fixed-width signed fields ([short], [long_], i.e. Int16sl, Int32sl):
    for a width [w > 0], reading succeeds with [v] exactly when
    [-2^(8w-1) <= v < 2^(8w-1)] and the stream starts with the [w]
    little-endian two's-complement bytes of [v]. *)
Theorem int_sl_layout w s v s' :
  (0 < w)%nat ->
  int_sl w s = Ok (v, s') <->
  - 2 ^ (8 * Z.of_nat w - 1) <= v < 2 ^ (8 * Z.of_nat w - 1) /\ s = le_bytes w v ++ s'.
Proof. apply int_sl_iff. Qed.

Lemma int_sl_layout_witness :
  (0 < 2)%nat /\
  (int_sl 2 [xfb; xff] = Ok (-5, []) <->
   - 2 ^ (8 * Z.of_nat 2 - 1) <= -5 < 2 ^ (8 * Z.of_nat 2 - 1) /\ [xfb; xff] = le_bytes 2 (-5) ++ []).
Proof. split; [lia|]. apply int_sl_layout. lia. Defined.

(** [header_str] reads exactly 20 bytes: it succeeds exactly when the
    stream starts with [VITA], then format_ver (u32), headerlen (u16),
    tzbias (i16), inst_id (u32) and prog_ver (u32), little-endian; the
    parsed header holds these values and [sig = VITA]. *)
Theorem header_str_layout s h s' :
  header_str s = Ok (h, s') <->
  sig h = sig_VITA /\
  0 <= format_ver h < 2 ^ 32 /\ 0 <= headerlen h < 2 ^ 16 /\
  - 2 ^ 15 <= tzbias h < 2 ^ 15 /\ 0 <= inst_id h < 2 ^ 32 /\ 0 <= prog_ver h < 2 ^ 32 /\
  s = sig_VITA ++ le_bytes 4 (format_ver h) ++ le_bytes 2 (headerlen h) ++
      le_bytes 2 (tzbias h) ++ le_bytes 4 (inst_id h) ++ le_bytes 4 (prog_ver h) ++ s'.
Proof. apply header_str_iff. Qed.

(** [header_str] errors: fewer than 4 bytes give a StreamError; 4 or
    more bytes not starting with [VITA] give a ConstError; a stream that
    starts with [VITA] but has fewer than 20 bytes gives a StreamError. *)
Theorem header_str_errors s :
  ((length s < 4)%nat -> header_str s = Err StreamError) /\
  ((4 <= length s)%nat -> take 4 s <> sig_VITA -> header_str s = Err ConstError) /\
  (take 4 s = sig_VITA -> (length s < 20)%nat -> header_str s = Err StreamError).
Proof. apply header_str_Err. Qed.

Lemma header_str_errors_witness :
  header_str [x56] = Err StreamError /\
  header_str [x56; x49; x54; x42] = Err ConstError /\
  header_str (sig_VITA ++ [x01]) = Err StreamError.
Proof.
  split; [|split].
  - apply (proj1 (header_str_errors [x56])). simpl. lia.
  - apply (proj1 (proj2 (header_str_errors [x56; x49; x54; x42]))); [simpl; lia|discriminate].
  - apply (proj2 (proj2 (header_str_errors (sig_VITA ++ [x01])))); [reflexivity|simpl; lia].
Defined.

(** [PascalString(DWORD, "UTF-8")] succeeds with [bs] exactly when the
    stream starts with the length of [bs] as a u32 (little-endian),
    followed by [bs] itself, and [bs] is valid UTF-8. *)
Theorem String__layout s bs s' :
  String_ s = Ok (bs, s') <->
  utf8_valid bs = true /\ Z.of_nat (length bs) < 2 ^ 32 /\
  s = le_bytes 4 (Z.of_nat (length bs)) ++ bs ++ s'.
Proof. apply String__iff. Qed.

(** [PascalString(DWORD, "UTF-8")] errors: a length prefix [n] larger
    than what remains gives a StreamError; [n] bytes that are not valid
    UTF-8 give a UnicodeDecodeError. *)
Theorem String__errors n s bs :
  (0 <= n < 2 ^ 32 -> Z.of_nat (length s) < n -> String_ (le_bytes 4 n ++ s) = Err StreamError) /\
  (Z.of_nat (length bs) < 2 ^ 32 -> utf8_valid bs = false ->
     String_ (le_bytes 4 (Z.of_nat (length bs)) ++ bs ++ s) = Err UnicodeDecodeError).
Proof. apply String__Err. Qed.

Lemma String__errors_witness :
  String_ (le_bytes 4 5 ++ [x41]) = Err StreamError /\
  String_ (le_bytes 4 (Z.of_nat (length [xff])) ++ [xff] ++ []) = Err UnicodeDecodeError.
Proof.
  split.
  - apply (proj1 (String__errors 5 [x41] [])); simpl; lia.
  - apply (proj2 (String__errors 0 [] [xff])); [simpl; lia|reflexivity].
Defined.

(** The integer cases of [recfmt_str]: for recfmt 3, 4 (u8), 5 (i16),
    6 (u16), 7 (i32) and 8 (u32) and a count [num >= 0], decoding succeeds
    exactly when the stream starts with [num] little-endian fields of that
    width and signedness; the values are those fields, in order. *)
Theorem recfmt_str_ints (fmt : Z) (w : nat) (signed : bool) num s vals s' :
  In (fmt, w, signed) [(3, 1%nat, false); (4, 1%nat, false); (5, 2%nat, true);
                       (6, 2%nat, false); (7, 4%nat, true); (8, 4%nat, false)] ->
  0 <= num ->
  recfmt_str fmt num s = Ok (vals, s') <->
  exists ns, Z.of_nat (length ns) = num /\
    Forall (fun n => if signed then - 2 ^ (8 * Z.of_nat w - 1) <= n < 2 ^ (8 * Z.of_nat w - 1)
                     else 0 <= n < 2 ^ (8 * Z.of_nat w)) ns /\
    vals = map PInt ns /\ s = concat (map (le_bytes w) ns) ++ s'.
Proof. apply recfmt_str_ints_iff. Qed.

Lemma recfmt_str_ints_witness :
  In (5, 2%nat, true) [(3, 1%nat, false); (4, 1%nat, false); (5, 2%nat, true);
                       (6, 2%nat, false); (7, 4%nat, true); (8, 4%nat, false)] /\ 0 <= 2 /\
  (recfmt_str 5 2 (le_bytes 2 (-1) ++ le_bytes 2 7) = Ok ([PInt (-1); PInt 7], []) <->
   exists ns, Z.of_nat (length ns) = 2 /\
     Forall (fun n => if true then - 2 ^ (8 * Z.of_nat 2 - 1) <= n < 2 ^ (8 * Z.of_nat 2 - 1)
                      else 0 <= n < 2 ^ (8 * Z.of_nat 2)) ns /\
     [PInt (-1); PInt 7] = map PInt ns /\
     le_bytes 2 (-1) ++ le_bytes 2 7 = concat (map (le_bytes 2) ns) ++ []).
Proof.
  split; [simpl; tauto|]. split; [lia|].
  apply (recfmt_str_ints 5 2%nat true 2); [simpl; tauto|lia].
Defined.

(** The float cases of [recfmt_str]: for recfmt 1 (f32) and 2 (f64) and a
    count [num >= 0], decoding succeeds exactly when the stream starts with
    [num] little-endian words of 4 (resp. 8) bytes; the values are the
    IEEE-754 floats of these words, in order. *)
Theorem recfmt_str_floats (fmt : Z) (w : nat) dec num s vals s' :
  In (fmt, w, dec) [(1, 4%nat, f32_of_bits); (2, 8%nat, f64_of_bits)] ->
  0 <= num ->
  recfmt_str fmt num s = Ok (vals, s') <->
  exists ns, Z.of_nat (length ns) = num /\ Forall (fun n => 0 <= n < 2 ^ (8 * Z.of_nat w)) ns /\
    vals = map (fun n => PFloat (dec n)) ns /\ s = concat (map (le_bytes w) ns) ++ s'.
Proof. apply recfmt_str_floats_iff. Qed.

Lemma recfmt_str_floats_witness :
  In (2, 8%nat, f64_of_bits) [(1, 4%nat, f32_of_bits); (2, 8%nat, f64_of_bits)] /\ 0 <= 1 /\
  (recfmt_str 2 1 (le_bytes 8 one_f64) = Ok ([PFloat (f64_of_bits one_f64)], []) <->
   exists ns, Z.of_nat (length ns) = 1 /\ Forall (fun n => 0 <= n < 2 ^ (8 * Z.of_nat 8)) ns /\
     [PFloat (f64_of_bits one_f64)] = map (fun n => PFloat (f64_of_bits n)) ns /\
     le_bytes 8 one_f64 = concat (map (le_bytes 8) ns) ++ []).
Proof.
  split; [simpl; tauto|]. split; [lia|].
  apply (recfmt_str_floats 2 8%nat f64_of_bits 1); [simpl; tauto|lia].
Defined.

(** [cmd_str]: a CMD payload is either the code 5 (ORDER), followed by a
    u16 count and that many u16 trkids, giving [cnt] and [trkids]; or any
    other one-byte code, with [cnt] and [trkids] absent (None). *)
Theorem cmd_str_layout s c s' :
  cmd_str s = Ok (c, s') <->
  (exists ids, c = {| cmd_code := 5; cnt := Some (Z.of_nat (length ids)); cmd_trkids := Some ids |} /\
     Z.of_nat (length ids) < 2 ^ 16 /\ Forall (fun i => 0 <= i < 2 ^ 16) ids /\
     s = le_bytes 1 5 ++ le_bytes 2 (Z.of_nat (length ids)) ++ concat (map (le_bytes 2) ids) ++ s') \/
  (exists b, 0 <= b < 2 ^ 8 /\ b <> 5 /\ c = {| cmd_code := b; cnt := None; cmd_trkids := None |} /\
     s = le_bytes 1 b ++ s').
Proof. apply cmd_str_iff. Qed.

(** The registry of [save_format_hook]: in a parsed file, every REC packet
    is preceded by a TRKINFO packet with its trkid, and its [rec_type],
    its [name] and the shape of its values come from the latest such
    TRKINFO before it (a later TRKINFO with the same trkid overrides an
    earlier one). *)
Theorem rec_latest_trkinfo ok path s v pre p post r :
  Vital_init ok path s = Ok v ->
  file_body (file v) = pre ++ p :: post -> data p = DRec r ->
  exists pre1 q pre2 info, pre = pre1 ++ q :: pre2 /\ data q = DTrk info /\
    trkid info = rec_trkid r /\
    (forall q' t', In q' pre2 -> data q' = DTrk t' -> trkid t' <> rec_trkid r) /\
    rec_rec_type r = rec_type info /\ rec_name r = name info /\
    kind_ok (rec_type info) (values r).
Proof. apply Vital_init_rec_latest. Qed.

Lemma rec_latest_trkinfo_witness :
  exists v pre p post r,
    Vital_init accept_all (bytes "case1.vital") ex_wave = Ok v /\
    file_body (file v) = pre ++ p :: post /\ data p = DRec r /\
    exists pre1 q pre2 info, pre = pre1 ++ q :: pre2 /\ data q = DTrk info /\
      trkid info = rec_trkid r /\
      (forall q' t', In q' pre2 -> data q' = DTrk t' -> trkid t' <> rec_trkid r) /\
      rec_rec_type r = rec_type info /\ rec_name r = name info /\
      kind_ok (rec_type info) (values r).
Proof.
  assert (H1 : Vital_init accept_all (bytes "case1.vital") ex_wave = Ok _)
    by (vm_compute; reflexivity).
  match type of H1 with _ = Ok ?v =>
    assert (H2 : file_body (file v) = [_] ++ _ :: []) by (vm_compute; reflexivity);
    match type of H2 with _ = [?a] ++ ?b :: [] =>
      assert (H3 : data b = DRec _) by (vm_compute; reflexivity);
      match type of H3 with _ = DRec ?r =>
        exists v, [a], b, [], r;
        exact (conj H1 (conj H2 (conj H3 (rec_latest_trkinfo _ _ _ _ _ _ _ _ H1 H2 H3))))
      end
    end
  end.
Defined.

(** What [Track(vital_obj, trkid)] changes, whether it succeeds or not:
    the path, the header, the summed datalen, the track-info list, the
    packets' types and datalens and the trkids of the RECs in order stay as
    they were, and the RECs of every other trkid are left untouched. *)
Theorem Track_init_frame v t res v' :
  Track_init v t = (res, v') ->
  vital_path v' = vital_path v /\ file_header (file v') = file_header (file v) /\
  summed_datalen (file v') = summed_datalen (file v) /\
  track_info v' = track_info v /\
  map (fun p => (type p, datalen p)) (file_body (file v')) =
    map (fun p => (type p, datalen p)) (file_body (file v)) /\
  map rec_trkid (recs v') = map rec_trkid (recs v) /\
  (forall t', t' <> t -> recs_of v' t' = recs_of v t').
Proof.
  intros H. destruct (Track_init_frame_body _ _ _ _ H) as (Hp & Hh & Hs & HF).
  repeat split; auto.
  - unfold track_info. exact (frame_track_info _ _ _ HF).
  - exact (frame_types _ _ _ HF).
  - unfold recs. exact (frame_recs_trkids _ _ _ HF).
  - intros t' Hne. unfold recs_of, recs. exact (frame_recs_other _ _ _ _ Hne HF).
Qed.

Lemma Track_init_frame_witness :
  exists v res v',
    Vital_init accept_all (bytes "case1.vital") ex_wave = Ok v /\ Track_init v 2 = (res, v') /\
    vital_path v' = vital_path v /\ file_header (file v') = file_header (file v) /\
    summed_datalen (file v') = summed_datalen (file v) /\
    track_info v' = track_info v /\
    map (fun p => (type p, datalen p)) (file_body (file v')) =
      map (fun p => (type p, datalen p)) (file_body (file v)) /\
    map rec_trkid (recs v') = map rec_trkid (recs v) /\
    (forall t', t' <> 2 -> recs_of v' t' = recs_of v t').
Proof.
  assert (H1 : Vital_init accept_all (bytes "case1.vital") ex_wave = Ok _)
    by (vm_compute; reflexivity).
  match type of H1 with _ = Ok ?v =>
    assert (H2 : Track_init v 2 = (_, _)) by (vm_compute; reflexivity);
    match type of H2 with _ = (?res, ?v') =>
      exists v, res, v'; exact (conj H1 (conj H2 (Track_init_frame _ _ _ _ H2)))
    end
  end.
Defined.

(** Repeating a successful [get_track] query on the object it left behind
    gives the same track and changes nothing more: the conversion of the
    REC values is not applied twice. *)
Theorem get_track_again v t n tr v' :
  get_track v t n = (Ok tr, v') -> get_track v' t n = (Ok tr, v').
Proof. apply get_track_again_gen. Qed.

Lemma get_track_again_witness :
  exists v tr v',
    Vital_init accept_all (bytes "case1.vital") ex_wave = Ok v /\
    get_track v (Some 2) None = (Ok tr, v') /\ get_track v' (Some 2) None = (Ok tr, v').
Proof.
  assert (H1 : Vital_init accept_all (bytes "case1.vital") ex_wave = Ok _)
    by (vm_compute; reflexivity).
  match type of H1 with _ = Ok ?v =>
    assert (H2 : get_track v (Some 2) None = (Ok _, _)) by (vm_compute; reflexivity);
    match type of H2 with _ = (Ok ?tr, ?v') =>
      exists v, tr, v'; exact (conj H1 (conj H2 (get_track_again _ _ _ _ _ H2)))
    end
  end.
Defined.

(** A track that [get_track] returns has the path of the file, its info is
    the only track-info entry with its trkid, and it matches the query: its
    trkid is the one asked for, if any, and its name is the one asked for,
    if any. *)
Theorem get_track_sound v t n tr v' :
  get_track v t n = (Ok tr, v') ->
  tpath tr = vital_path v /\
  List.filter (fun i => trkid i =? trkid (tinfo tr)) (track_info v) = [tinfo tr] /\
  (forall t0, t = Some t0 -> trkid (tinfo tr) = t0) /\
  (forall n0, n = Some n0 -> name (tinfo tr) = n0).
Proof. apply get_track_Ok. Qed.

Lemma get_track_sound_witness :
  exists v tr v',
    Vital_init accept_all (bytes "case1.vital") ex_wave = Ok v /\
    get_track v None (Some (bytes "ABP")) = (Ok tr, v') /\
    tpath tr = vital_path v /\
    List.filter (fun i => trkid i =? trkid (tinfo tr)) (track_info v) = [tinfo tr] /\
    (forall t0, None = Some t0 -> trkid (tinfo tr) = t0) /\
    (forall n0, Some (bytes "ABP") = Some n0 -> name (tinfo tr) = n0).
Proof.
  assert (H1 : Vital_init accept_all (bytes "case1.vital") ex_wave = Ok _)
    by (vm_compute; reflexivity).
  match type of H1 with _ = Ok ?v =>
    assert (H2 : get_track v None (Some (bytes "ABP")) = (Ok _, _)) by (vm_compute; reflexivity);
    match type of H2 with _ = (Ok ?tr, ?v') =>
      exists v, tr, v'; exact (conj H1 (conj H2 (get_track_sound _ _ _ _ _ H2)))
    end
  end.
Defined.

(** [save_tracks_to_file(save_all=True)] writes the files of the tracks in
    track-info order, one per entry, each named [<stem of the file>_<track
    name>.csv] in the folder [path] (default [converted]); the files
    written before an exception are a prefix of that list, none is written
    unless every track could be built, and without an exception all are
    written.  The other arguments are ignored. *)
Theorem save_tracks_all_files to_pandas_rows v trackids names path ws e v' :
  save_tracks_to_file to_pandas_rows v trackids names path true = ((ws, e), v') ->
  exists rest,
    map fst ws ++ rest =
      map (fun i => (default (bytes "converted") path,
                     path_stem (vital_path v) ++ bytes "_" ++ name i ++ bytes ".csv"))
          (track_info v) /\
    (e = None -> rest = []) /\
    (ws <> [] -> exists trs, get_tracks v (map (fun i => (Some (trkid i), None)) (track_info v))
                             = (Ok trs, v')).
Proof.
  unfold save_tracks_to_file. intros H.
  pose proof H as H0. unfold save_built in H0.
  apply save_built_prefix in H as [(trs & rest & HF & Hr & He)|(-> & e' & ->)].
  - exists rest. split; [|split; [exact He|]].
    + rewrite Hr. symmetry. apply Forall2_map_l_iff in HF.
      refine (Forall2_map_eq _ _ _ _ _ _ HF). intros i tr Hi (Hp & Hf & Ht & _).
      simpl in Ht. rewrite Hp.
      rewrite <- (filter_single_In _ _ _ _ Hf Hi) by (apply Z.eqb_eq; symmetry; apply Ht; reflexivity).
      reflexivity.
    + intros Hne. revert H0.
      destruct (get_tracks v (map (fun i => (Some (trkid i), None)) (track_info v)))
        as [[trs'|e0] v1]; simpl; [|intros H; injection H as <- _ _; contradiction].
      destruct (save_each to_pandas_rows trs' path). intros H. injection H as _ _ <-. eauto.
  - eexists. split; [reflexivity|]. split; [discriminate|]. intros Hne. contradiction.
Qed.

Lemma save_tracks_all_files_witness :
  exists v ws e v',
    Vital_init accept_all (bytes "case1.vital") ex_wave = Ok v /\
    save_tracks_to_file (fun _ => Ok []) v None None None true = ((ws, e), v') /\
    exists rest,
      map fst ws ++ rest =
        map (fun i => (default (bytes "converted") None,
                       path_stem (vital_path v) ++ bytes "_" ++ name i ++ bytes ".csv"))
            (track_info v) /\
      (e = None -> rest = []) /\
      (ws <> [] -> exists trs, get_tracks v (map (fun i => (Some (trkid i), None)) (track_info v))
                               = (Ok trs, v')).
Proof.
  assert (H1 : Vital_init accept_all (bytes "case1.vital") ex_wave = Ok _)
    by (vm_compute; reflexivity).
  match type of H1 with _ = Ok ?v =>
    assert (H2 : save_tracks_to_file (fun _ => Ok []) v None None None true = ((_, _), _))
      by (vm_compute; reflexivity);
    match type of H2 with _ = ((?ws, ?e), ?v') =>
      exists v, ws, e, v';
      exact (conj H1 (conj H2 (save_tracks_all_files _ _ _ _ _ _ _ _ H2)))
    end
  end.
Defined.

(** [save_tracks_to_file(names=ns)] (without save_all) takes the names
    over any trkids: it writes, in the order of [ns], one file per name,
    named [<stem of the file>_<name>.csv] in the folder [path] (default
    [converted]); the files written before an exception are a prefix of
    that list, and without an exception all are written. *)
Theorem save_tracks_by_names to_pandas_rows v trackids ns path ws e v' :
  save_tracks_to_file to_pandas_rows v trackids (Some ns) path false = ((ws, e), v') ->
  exists rest,
    map fst ws ++ rest =
      map (fun n => (default (bytes "converted") path,
                     path_stem (vital_path v) ++ bytes "_" ++ n ++ bytes ".csv")) ns /\
    (e = None -> rest = []).
Proof.
  unfold save_tracks_to_file. intros H.
  assert (H' : save_built to_pandas_rows (get_tracks v (map (fun n => (None, Some n)) ns)) path
               = ((ws, e), v')) by (destruct trackids as [[|? ?]|]; exact H).
  apply save_built_prefix in H' as [(trs & rest & HF & Hr & He)|(-> & e' & ->)].
  - exists rest. split; [|exact He].
    rewrite Hr. symmetry. apply Forall2_map_l_iff in HF.
    refine (Forall2_map_eq _ _ _ _ _ _ HF). intros n tr _ (Hp & _ & _ & Hn).
    simpl in Hn. rewrite Hp, (Hn n eq_refl). reflexivity.
  - eexists. split; [reflexivity|discriminate].
Qed.

Lemma save_tracks_by_names_witness :
  exists v ws e v',
    Vital_init accept_all (bytes "case1.vital") ex_wave = Ok v /\
    save_tracks_to_file (fun _ => Ok []) v (Some [7]) (Some [bytes "ABP"]) None false
      = ((ws, e), v') /\
    exists rest,
      map fst ws ++ rest =
        map (fun n => (default (bytes "converted") None,
                       path_stem (vital_path v) ++ bytes "_" ++ n ++ bytes ".csv"))
            [bytes "ABP"] /\
      (e = None -> rest = []).
Proof.
  assert (H1 : Vital_init accept_all (bytes "case1.vital") ex_wave = Ok _)
    by (vm_compute; reflexivity).
  match type of H1 with _ = Ok ?v =>
    assert (H2 : save_tracks_to_file (fun _ => Ok []) v (Some [7]) (Some [bytes "ABP"]) None false
                 = ((_, _), _)) by (vm_compute; reflexivity);
    match type of H2 with _ = ((?ws, ?e), ?v') =>
      exists v, ws, e, v';
      exact (conj H1 (conj H2 (save_tracks_by_names _ _ _ _ _ _ _ _ H2)))
    end
  end.
Defined.
